(** * translateAndSummaryManyWord.py: the paragraph annotation pipeline

    A shallow embedding of [translateAndSummaryManyWord.py] (translate each
    paragraph of a Word document to Chinese, summarise the long ones) and
    the proofs of the properties its specification states.

    Python values are modelled as follows.
    - [str] is a list of Unicode code points ([N]); [strip], [join] and the
      truth value of a string follow CPython.
    - [int] is [Z]; lengths are [nat] and are injected with [Z.of_nat].
    - NLTK's [sent_tokenize] and [word_tokenize], the BART tokenizer, the
      Unicode alphabetic table behind [str.isalpha], the translation
      backend, the summarisation pipeline and the storing of a text in a
      run by python-docx are external: they are the fields of the class
      [External], each a function of its input. The two backends and the
      document library answer with a value or raise an exception.
    - A call of a backend is recorded in a log that is threaded through the
      program by a state and exception monad [M].
    - A document is the list of its paragraphs, a paragraph the list of its
      runs; [text] concatenates the runs' texts, and [add_run] appends a
      run that holds the text as the library stored it, or raises what the
      library raises on a text it cannot store.
      Field updates of [Candidate] objects and of paragraphs are written as
      explicit state passing: the list [collect_candidates] returns holds
      distinct objects, so no two positions alias.
    - Printing is taken to succeed, and the lines printed by the annotator
      are left out.

    The development also covers the command line of that script, over an
    external file system ([Files], the monad [IO]), and the other script,
    [WebCrawlingWithManyURL.py]: the name it gives to a saved file
    ([sanitize_filename]) and its loop over the URLs, as a client of an
    external web, parser and document library ([Web], the monad [F]). *)

From Stdlib Require Import NArith ZArith String Ascii.
From stdpp Require Import base option list sorting gmap.

Local Open Scope N_scope.
Local Open Scope nat_scope.

(** ** Python strings *)

Module Py.

Abbreviation str := (list N) (only parsing).

(** A literal of ASCII characters. *)
Fixpoint lit (s : string) : str :=
  match s with
  | EmptyString => []
  | String a s' => N_of_ascii a :: lit s'
  end.

(** [str.isspace] on one character (CPython's [_PyUnicode_IsWhitespace]). *)
Definition isspace (c : N) : bool :=
  ((9 <=? c) && (c <=? 13) || (28 <=? c) && (c <=? 32)
   || (c =? 133) || (c =? 160) || (c =? 5760)
   || (8192 <=? c) && (c <=? 8202)
   || (c =? 8232) || (c =? 8233) || (c =? 8239) || (c =? 8287)
   || (c =? 12288))%N.

Fixpoint lstrip (s : str) : str :=
  match s with
  | [] => []
  | c :: s' => if isspace c then lstrip s' else s
  end.

Definition rstrip (s : str) : str := rev (lstrip (rev s)).

(** [s.strip()] *)
Definition strip (s : str) : str := rstrip (lstrip s).

(** The truth value of a sequence: [bool(s)]. *)
Definition truthy {A} (s : list A) : bool :=
  match s with [] => false | _ => true end.

(** [sep.join(xs)] *)
Fixpoint join (sep : str) (xs : list str) : str :=
  match xs with
  | [] => []
  | [x] => x
  | x :: xs' => x ++ sep ++ join sep xs'
  end.

(** [l[a:b]] for [0 <= a <= b]. *)
Definition slice {A} (l : list A) (a b : nat) : list A :=
  take (b - a) (drop a l).

(** [range(start, stop, step)] for a positive [step]. *)
Fixpoint range_from (fuel start stop step : nat) : list nat :=
  match fuel with
  | O => []
  | S fuel' =>
      if start <? stop
      then start :: range_from fuel' (start + step) stop step
      else []
  end.

Definition range (start stop step : nat) : list nat :=
  range_from stop start stop step.

(** [enumerate(l)] counting from [i]. *)
Fixpoint enumerate_from {A} (i : nat) (l : list A) : list (nat * A) :=
  match l with
  | [] => []
  | x :: l' => (i, x) :: enumerate_from (S i) l'
  end.

Definition enumerate {A} (l : list A) : list (nat * A) := enumerate_from 0 l.

End Py.

Import Py.

(** ** Exceptions, backend calls and the monad

    An exception is an instance of Python's [Exception]: what a backend
    raises on a failure, what [except Exception] catches, and what ends
    [process_docx] when it is not caught. *)

Inductive exn : Type :=
  | Exception (msg : str).

Inductive outcome (A : Type) : Type :=
  | Return (a : A)
  | Raise (e : exn).
Arguments Return {A} a.
Arguments Raise {A} e.

(** What reaches a backend. *)
Inductive Call : Type :=
  | Translate (text : str)
  | Summarize (chunk : list str).

Definition M (A : Type) : Type := list Call → outcome A * list Call.

Definition M_ret {A} (a : A) : M A := λ log, (Return a, log).

Definition M_bind {A B} (f : A → M B) (m : M A) : M B :=
  λ log,
    match m log with
    | (Return a, log') => f a log'
    | (Raise e, log') => (Raise e, log')
    end.

#[global] Instance M_mret : MRet M := @M_ret.
#[global] Instance M_mbind : MBind M := @M_bind.

(** [try: m except Exception: h] *)
Definition try_except {A} (m : M A) (h : M A) : M A :=
  λ log,
    match m log with
    | (Return a, log') => (Return a, log')
    | (Raise _, log') => h log'
    end.

(** The value a computation returns and the calls it makes, from an empty log. *)
Definition result_of {A} (m : M A) : outcome A := (m []).1.
Definition calls_of {A} (m : M A) : list Call := (m []).2.

(** ** Parameters of the script *)

Definition MIN_WORDS : nat := 40.
Definition MAX_INPUT_TOKENS : Z := 1024.
Definition MIN_LEN_FIXED : Z := 30.
Definition MAX_LEN_FIXED : Z := 80.
Definition BATCH_SIZE : nat := 4.
Definition YAHEI : str := lit "Microsoft YaHei".

(** ** Documents (python-docx) *)

Record Run : Type := mkRun {
  run_text : str;
  font_name : option str;
  font_eastAsia : option str;
  font_size : option Z;       (* in EMU *)
  bold : option bool
}.

Record Paragraph : Type := mkParagraph { runs : list Run }.

(** [para.text] *)
Definition text (p : Paragraph) : str := concat (map run_text (runs p)).

(** A run with the text [t] and no formatting of its own. *)
Definition new_run (t : str) : Run := mkRun t None None None None.

(** [docx.shared.Pt] *)
Definition Pt (points : Z) : Z := (points * 12700)%Z.

Record Candidate : Type := mkCandidate {
  idx : nat;
  truncated : str;
  summary_zh : str
}.

(** ** The external parts

    NLTK's tokenizers, the BART tokenizer, the Unicode table of alphabetic
    characters, [_trans.translate], and [SUMMARIZER] with the script's fixed
    options ([max_length], [min_length], no sampling, truncation, one
    batch per call); its answer is the list of its [summary_text] entries.
    The script tests a translation for its truth value before it uses it,
    so an answer of the translator that is not a string counts as the
    empty string.

    [docx_run_text t] is what python-docx makes of the text [t] handed to
    [para.add_run]: the text the new run then holds (a carriage return,
    for one, is stored as a line break), or the exception the library
    raises on a text it cannot store (one with a NUL or another control
    character). *)

Class External : Type := {
  sent_tokenize : str → list str;
  word_tokenize : str → list str;
  TOKENIZER_tokenize : str → list str;
  isalpha_char : N → bool;
  trans_translate : str → outcome str;
  SUMMARIZER : list str → outcome (list str);
  docx_run_text : str → outcome str
}.

(** ** The script *)

Section Pipeline.

Context {ext : External}.

Definition call_translate (t : str) : M str :=
  λ log, (trans_translate t, log ++ [Translate t]).

Definition call_SUMMARIZER (chunk : list str) : M (list str) :=
  λ log, (SUMMARIZER chunk, log ++ [Summarize chunk]).

(** [w.isalpha()] *)
Definition isalpha (w : str) : bool := truthy w && forallb isalpha_char w.

Definition translate_en2zh (t : str) : M str :=
  if negb (truthy (strip t)) then mret []
  else try_except (call_translate t) (mret t).

(** The loop of [truncate_text_by_sentences]: [kept] after the sentences
    [sents], from the running count [cur]. *)
Fixpoint keep_sentences (max_tokens : Z) (sents : list str) (cur : Z)
    (kept : list str) : list str :=
  match sents with
  | [] => kept
  | s :: sents' =>
      let tl := Z.of_nat (length (TOKENIZER_tokenize s)) in
      if (max_tokens <? cur + tl)%Z then kept
      else keep_sentences max_tokens sents' (cur + tl)%Z (kept ++ [s])
  end.

Definition truncate_text_by_sentences (t : str) (max_tokens : Z) : str :=
  let sents := sent_tokenize t in
  let kept := keep_sentences max_tokens sents 0%Z [] in
  if truthy kept then join (lit " ") kept ++ lit "..." else t.

(** [Candidate(para_idx, text)] *)
Definition Candidate_init (para_idx : nat) (t : str) : Candidate :=
  {| idx := para_idx;
     truncated :=
       if (MAX_INPUT_TOKENS <? Z.of_nat (length (TOKENIZER_tokenize t)))%Z
       then truncate_text_by_sentences t MAX_INPUT_TOKENS
       else t;
     summary_zh := [] |}.

(** [len([w for w in word_tokenize(txt) if w.isalpha()])] *)
Definition alpha_words (txt : str) : nat :=
  length (filter (λ w, isalpha w = true) (word_tokenize txt)).

Fixpoint collect_loop (ps : list (nat * Paragraph)) (cands : list Candidate)
    : list Candidate :=
  match ps with
  | [] => cands
  | (i, p) :: ps' =>
      let txt := strip (text p) in
      if negb (truthy txt) then collect_loop ps' cands
      else if MIN_WORDS <? alpha_words txt
           then collect_loop ps' (cands ++ [Candidate_init i txt])
           else collect_loop ps' cands
  end.

Definition collect_candidates (paragraphs : list Paragraph) : list Candidate :=
  collect_loop (enumerate paragraphs) [].

Definition set_summary_zh (c : Candidate) (s : str) : Candidate :=
  {| idx := idx c; truncated := truncated c; summary_zh := s |}.

(** [for c, out in zip(cs, outs):
       c.summary_zh = translate_en2zh(out["summary_text"].strip())] *)
Fixpoint write_back (cs : list Candidate) (outs : list str)
    : M (list Candidate) :=
  match cs, outs with
  | c :: cs', out :: outs' =>
      zh ← translate_en2zh (strip out);
      rest ← write_back cs' outs';
      mret (set_summary_zh c zh :: rest)
  | _, _ => mret cs
  end.

(** The loop of [batch_summarize] over the batch starts. The candidates of
    the slice are updated in place: the list is given back with the
    updated slice at its place. *)
Fixpoint batch_loop (starts : list nat) (texts : list str)
    (cands : list Candidate) : M (list Candidate) :=
  match starts with
  | [] => mret cands
  | start :: starts' =>
      let chunk := slice texts start (start + BATCH_SIZE) in
      outs ← call_SUMMARIZER chunk;
      updated ← write_back (slice cands start (start + BATCH_SIZE)) outs;
      batch_loop starts' texts
        (take start cands ++ updated ++ drop (start + BATCH_SIZE) cands)
  end.

Definition batch_summarize (cands : list Candidate) : M (list Candidate) :=
  if negb (truthy cands) then mret cands
  else
    let texts := map truncated cands in
    batch_loop (range 0 (length texts) BATCH_SIZE) texts cands.

(** [set_yahei(run, bold, size)]; the script calls it with the default
    size, 11. *)
Definition set_yahei (run : Run) (b : bool) (size : Z) : Run :=
  {| run_text := run_text run;
     font_name := Some YAHEI;
     font_eastAsia := Some YAHEI;
     font_size := Some (Pt size);
     bold := Some b |}.

(** The line break that opens an appended run, and the label of a summary
    run: a line break, then the Chinese for "paragraph summary" and a
    full-width colon. *)
Definition NEWLINE : str := [10]%N.
Definition SUMMARY_LABEL : str := [10; 27573; 33853; 24635; 32467; 65306]%N.

(** [r = para.add_run(t)] and the formatting [fmt] of [r] that follows it.
    The library stores the text in a new run at the end of the paragraph,
    or raises; the run is formatted where it is. Nothing is caught here or
    in [process_docx]. *)
Definition add_run (p : Paragraph) (t : str) (fmt : Run → Run) : M Paragraph :=
  λ log,
    match docx_run_text t with
    | Return stored =>
        (Return (mkParagraph (runs p ++ [fmt (new_run stored)])), log)
    | Raise e => (Raise e, log)
    end.

(** The body of the loop of [process_docx] for the paragraph at [i]. *)
Definition annotate (idx2summary : gmap nat str) (i : nat) (para : Paragraph)
    : M Paragraph :=
  let txt := strip (text para) in
  if negb (truthy txt) then mret para
  else
    zh ← translate_en2zh txt;
    para ← (if truthy zh
            then add_run para (NEWLINE ++ zh) (λ r, set_yahei r false 11)
            else mret para);
    match idx2summary !! i with
    | Some s =>
        if truthy s
        then add_run para (SUMMARY_LABEL ++ s) (λ r, set_yahei r true 11)
        else mret para
    | None => mret para
    end.

Fixpoint merge_loop (idx2summary : gmap nat str) (ps : list (nat * Paragraph))
    : M (list Paragraph) :=
  match ps with
  | [] => mret []
  | (i, para) :: ps' =>
      para' ← annotate idx2summary i para;
      rest ← merge_loop idx2summary ps';
      mret (para' :: rest)
  end.

(** [{c.idx: c.summary_zh for c in cands}] *)
Definition idx2summary_of (cands : list Candidate) : gmap nat str :=
  foldl (λ m c, <[idx c := summary_zh c]> m) ∅ cands.

(** [process_docx] between the loading of the document and its saving:
    from the paragraphs of the loaded document to the paragraphs of the
    document that is saved. The loading and the saving are in
    [process_docx_file] below. The progress lines it prints are left out. *)
Definition process_docx (doc : list Paragraph) : M (list Paragraph) :=
  let cands := collect_candidates doc in
  cands' ← batch_summarize cands;
  merge_loop (idx2summary_of cands') (enumerate doc).

End Pipeline.

(** ** WebCrawlingWithManyURL.py: the name of the saved file *)

(** [s.lstrip(chars)], [s.rstrip(chars)] and [s.strip(chars)]: the
    characters of [chars] are taken off the ends. *)
Fixpoint lstrip_chars (chars s : str) : str :=
  match s with
  | [] => []
  | c :: s' => if bool_decide (c ∈ chars) then lstrip_chars chars s' else s
  end.

Definition rstrip_chars (chars s : str) : str :=
  rev (lstrip_chars chars (rev s)).

Definition strip_chars (chars s : str) : str :=
  rstrip_chars chars (lstrip_chars chars s).

(** The characters of the class of the first pattern of
    [sanitize_filename]: backslash, slash, colon, star, question mark,
    double quote, the angle brackets and the bar. *)
Definition RESERVED : str := [92; 47; 58; 42; 63; 34; 60; 62; 124]%N.

Definition UNDERSCORE : N := 95%N.

(** [re.sub] of the first pattern, a class of single characters: each
    character of the class is replaced by an underscore. *)
Definition sub_reserved (t : str) : str :=
  map (λ c, if bool_decide (c ∈ RESERVED) then UNDERSCORE else c) t.

(** [re.sub] of the second pattern, one or more white space characters:
    each maximal run of white space is replaced by one underscore.
    [in_run] tells that the character before was white space, so that the
    underscore of this run is already written. *)
Fixpoint sub_whitespace (in_run : bool) (t : str) : str :=
  match t with
  | [] => []
  | c :: t' =>
      if isspace c
      then (if in_run then sub_whitespace true t'
            else UNDERSCORE :: sub_whitespace true t')
      else c :: sub_whitespace false t'
  end.

Definition sanitize_filename (t : str) : str :=
  let t := sub_reserved t in
  strip_chars [UNDERSCORE] (sub_whitespace false t).

(** [f"{art['date'] or 'undated'}-{art['title']}.docx"], sanitized: the
    file name [main] saves an article under. *)
Definition article_filename (date title : str) : str :=
  sanitize_filename
    ((if truthy date then date else lit "undated")
       ++ lit "-" ++ title ++ lit ".docx").

(** ** translateAndSummaryManyWord.py: files and the command line

    The file system, [pathlib], [str.lower] and the reading and writing of
    documents are external. [FS] is the state of the file system: what
    [exists], [Document] and [resolve] answer depends on it, and saving a
    document changes it, also when the saving raises. *)

Class Files : Type := {
  FS : Type;
  Path_exists : FS → str → bool;
  Path_suffix : str → str;
  Path_stem : str → str;
  Path_with_name : str → str → outcome str;
  Path_resolve : FS → str → outcome str;
  str_lower : str → str;
  Document : FS → str → outcome (list Paragraph);
  Document_save : FS → str → list Paragraph → outcome unit * FS
}.

(** A computation on the file system and the log of the backend calls. *)
Definition IO {files : Files} (A : Type) : Type :=
  FS * list Call → outcome A * (FS * list Call).

Definition IO_ret {files : Files} {A} (a : A) : IO A := λ w, (Return a, w).

Definition IO_bind {files : Files} {A B} (f : A → IO B) (m : IO A) : IO B :=
  λ w,
    match m w with
    | (Return a, w') => f a w'
    | (Raise e, w') => (Raise e, w')
    end.

#[global] Instance IO_mret {files : Files} : MRet IO := @IO_ret files.
#[global] Instance IO_mbind {files : Files} : MBind IO := @IO_bind files.

(** A computation on the backends alone leaves the file system as it is. *)
Definition lift {files : Files} {A} (m : M A) : IO A :=
  λ w, let '(r, log') := m w.2 in (r, (w.1, log')).

Section CommandLine.

Context {ext : External} {files : Files}.

Definition call_exists (f : str) : IO bool :=
  λ w, (Return (Path_exists w.1 f), w).

Definition call_Document (path : str) : IO (list Paragraph) :=
  λ w, (Document w.1 path, w).

Definition call_with_name (path name : str) : IO str :=
  λ w, (Path_with_name path name, w).

Definition call_save (out : str) (doc : list Paragraph) : IO unit :=
  λ w, let '(r, fs') := Document_save w.1 out doc in (r, (fs', w.2)).

Definition call_resolve_saved (out : str) : IO str :=
  λ w, (Path_resolve w.1 out, w).

(** [process_docx(path)]: the document is read, annotated by
    [process_docx] above, and saved beside the input under the name of the
    input's stem followed by [_zh.docx]; the path of the saved file is
    then resolved for the last line printed. *)
Definition process_docx_file (path : str) : IO unit :=
  doc ← call_Document path;
  doc' ← lift (process_docx doc);
  out ← call_with_name path (Path_stem path ++ lit "_zh.docx");
  call_save out doc';;
  call_resolve_saved out;;
  mret tt.

(** The loop of the script over [args.files]. The lines it prints are left
    out. *)
Fixpoint cli (fs : list str) : IO unit :=
  match fs with
  | [] => mret tt
  | f :: fs' =>
      found ← call_exists f;
      if negb found then cli fs'
      else if bool_decide (str_lower (Path_suffix f) ≠ lit ".docx")
           then cli fs'
           else process_docx_file f ;; cli fs'
  end.

End CommandLine.

(** ** WebCrawlingWithManyURL.py: fetching, parsing and saving an article

    The HTTP client, the HTML parser, the regular expression engine, the
    file system and the document library are external. The script is a
    client of them: what it asks of them is recorded, in order, in a log of
    effects, and what they answer may depend on all that happened before. *)

(** The response of [requests.get]: what [raise_for_status] raises on it,
    if anything, and its text. *)
Record Response : Type := mkResponse {
  status_error : option exn;
  resp_text : str
}.

(** The parsed page, as the queries of [parse_article] see it: the text of
    the first [h1] ([get_text(strip=True)]); the first [time] element, with
    its attribute [datetime] when it has one; the text of the page; and,
    for the first [div] whose class matches the pattern and for the first
    [article], the texts ([get_text(" ", strip=True)]) of its [p]
    elements. *)
Record Soup : Type := mkSoup {
  find_h1 : option str;
  find_time : option (option str);
  soup_text : str;
  find_div : option (list str);
  find_article : option (list str)
}.

(** The dictionary [parse_article] returns. *)
Record Article : Type := mkArticle {
  art_title : str;
  art_date : str;
  art_paragraphs : list str
}.

(** [out_dir / fname] for a name without separator. *)
Record FilePath : Type := mkFilePath {
  parent : str;
  name : str
}.

(** The calls of the document library, lengths in EMU. [SetAlignmentLeft]
    and [SetStyleFontSize] are on the paragraph added last: its alignment,
    and the font size of its style. *)
Inductive DocxOp : Type :=
  | NewDocument
  | SetPageHeight (emu : Z)
  | SetPageWidth (emu : Z)
  | SetLeftMargin (emu : Z)
  | SetRightMargin (emu : Z)
  | SetTopMargin (emu : Z)
  | SetBottomMargin (emu : Z)
  | AddHeading (t : str) (level : Z)
  | AddParagraph (t : str)
  | SetAlignmentLeft
  | SetStyleFontSize (emu : Z)
  | SaveDocument (path : FilePath).

(** A line on the console: for a saved file, on the standard output; for a
    URL that failed, with the exception, on the standard error. *)
Inductive Line : Type :=
  | Saved (path : FilePath)
  | Failed (url : str) (e : exn).

(** What the script asks of the outside: a request, a call
    [dir.mkdir(parents=..., exist_ok=...)] (which, with [parents], makes
    the directory and every ancestor of it that is missing), a call of the
    document library, and a line printed. *)
Inductive Effect : Type :=
  | EvGet (url : str)
  | EvMkdir (dir : str) (parents exist_ok : bool)
  | EvDocx (op : DocxOp)
  | EvReport (line : Line).

(** The namespace [parser.parse_args()] returns. *)
Record Args : Type := mkArgs {
  urls : list str;
  outdir : str
}.

(** [parse_args] gives the namespace of the command line, or nothing when
    argparse ends the program itself (a usage error, [--help]): it does so
    by [SystemExit], which is not an [Exception].
    [Path_expanduser_resolve d] is [Path(d).expanduser().resolve()], which
    can raise. [Path_mkdir] is [mkdir] with [parents=True] and
    [exist_ok=True]. *)
Class Web : Type := {
  parse_args : list str → option Args;
  Path_expanduser_resolve : list Effect → str → outcome str;
  requests_get : list Effect → str → outcome Response;
  BeautifulSoup : str → outcome Soup;
  re_search_date : str → option str;
  Path_mkdir : list Effect → str → outcome unit;
  docx_call : list Effect → DocxOp → outcome unit
}.

Definition F (A : Type) : Type := list Effect → outcome A * list Effect.

Definition F_ret {A} (a : A) : F A := λ log, (Return a, log).

Definition F_bind {A B} (f : A → F B) (m : F A) : F B :=
  λ log,
    match m log with
    | (Return a, log') => f a log'
    | (Raise e, log') => (Raise e, log')
    end.

#[global] Instance F_mret : MRet F := @F_ret.
#[global] Instance F_mbind : MBind F := @F_bind.

Definition F_raise {A} (e : exn) : F A := λ log, (Raise e, log).

(** [try: m except Exception as e: h e] *)
Definition F_try {A} (m : F A) (h : exn → F A) : F A :=
  λ log,
    match m log with
    | (Return a, log') => (Return a, log')
    | (Raise e, log') => h e log'
    end.

(** [Inches(11.7)], [Inches(8.3)] and [Inches(1)]: the integer part of the
    inches times 914400. *)
Definition A4_HEIGHT : Z := 10698480.
Definition A4_WIDTH : Z := 7589520.
Definition ONE_INCH : Z := 914400.

(** The label of the date line: the Chinese for "date of publication" and a
    full-width colon. *)
Definition DATE_LABEL : str := [21457; 24067; 26085; 26399; 65306]%N.

Section Fetcher.

Context {web : Web}.

Definition call_get (url : str) : F Response :=
  λ log, (requests_get log url, log ++ [EvGet url]).

Definition call_resolve (dir : str) : F str :=
  λ log, (Path_expanduser_resolve log dir, log).

(** [dir.mkdir(parents=True, exist_ok=True)] *)
Definition call_mkdir (dir : str) : F unit :=
  λ log, (Path_mkdir log dir, log ++ [EvMkdir dir true true]).

Definition docx (op : DocxOp) : F unit :=
  λ log, (docx_call log op, log ++ [EvDocx op]).

(** [print] of a line; printing is taken to succeed. *)
Definition report (line : Line) : F unit :=
  λ log, (Return tt, log ++ [EvReport line]).

Definition raise_for_status (resp : Response) : F unit :=
  match status_error resp with
  | Some e => F_raise e
  | None => mret tt
  end.

Definition fetch_page (url : str) : F str :=
  resp ← call_get url;
  raise_for_status resp;;
  mret (resp_text resp).

(** [parse_article] after the parsing of the page. *)
Definition parse_soup (soup : Soup) : Article :=
  let title :=
    match find_h1 soup with
    | Some t => t
    | None => lit "Untitled"
    end in
  let pub :=
    match find_time soup with
    | Some (Some datetime) => take 10 datetime
    | _ =>
        match re_search_date (soup_text soup) with
        | Some m => m
        | None => []
        end
    end in
  let container :=
    match find_div soup with
    | Some c => Some c
    | None => find_article soup
    end in
  let paragraphs :=
    match container with
    | Some ps => filter (λ txt, truthy txt = true) ps
    | None => []
    end in
  {| art_title := title; art_date := pub; art_paragraphs := paragraphs |}.

Definition parse_article (html : str) : F Article :=
  soup ← (λ log, (BeautifulSoup html, log));
  mret (parse_soup soup).

(** The loop of [save_to_word] over the paragraphs of the article. *)
Fixpoint add_paragraphs (ps : list str) : F unit :=
  match ps with
  | [] => mret tt
  | para :: ps' =>
      docx (AddParagraph para);;
      docx (SetStyleFontSize (Pt 12));;
      add_paragraphs ps'
  end.

Definition save_to_word (article : Article) (path : FilePath) : F unit :=
  call_mkdir (parent path);;
  docx NewDocument;;
  docx (SetPageHeight A4_HEIGHT);;
  docx (SetPageWidth A4_WIDTH);;
  docx (SetLeftMargin ONE_INCH);;
  docx (SetRightMargin ONE_INCH);;
  docx (SetTopMargin ONE_INCH);;
  docx (SetBottomMargin ONE_INCH);;
  docx (AddHeading (art_title article) 1);;
  (if truthy (art_date article)
   then docx (AddParagraph (DATE_LABEL ++ art_date article));;
        docx SetAlignmentLeft
   else mret tt);;
  add_paragraphs (art_paragraphs article);;
  docx (SaveDocument path);;
  report (Saved path).

(** The body of the loop of [main] for one URL, with its handler. *)
Definition handle_url (out_dir url : str) : F unit :=
  F_try
    (html ← fetch_page url;
     art ← parse_article html;
     let fname := article_filename (art_date art) (art_title art) in
     save_to_word art (mkFilePath out_dir fname))
    (λ e, report (Failed url e)).

(** The loop of [main] over [args.urls]. *)
Fixpoint main_loop (out_dir : str) (urls : list str) : F unit :=
  match urls with
  | [] => mret tt
  | url :: urls' => handle_url out_dir url;; main_loop out_dir urls'
  end.

(** [main()] on the command line [argv]. The arguments are parsed and the
    output directory is resolved before the loop and outside its [try].
    The result is [None] when argparse ended the program, [Some tt] when
    [main] came to its end. *)
Definition main (argv : list str) : F (option unit) :=
  match parse_args argv with
  | None => mret None
  | Some args =>
      out_dir ← call_resolve (outdir args);
      main_loop out_dir (urls args);;
      mret (Some tt)
  end.

End Fetcher.

(** ** A small instance of the external parts

    Sentences are separated by [|], words by spaces, a token is one
    character, and the letters are the ASCII ones. The translator prefixes
    its input with [zh:], raises on a text that starts with [!], answers
    the empty string on a text that starts with [~] and a text with a NUL
    character on a text that starts with [^]; the summariser keeps
    the first five characters of each text. The document library refuses a
    text with a control character other than tab, line feed and carriage
    return, and stores a carriage return as a line feed. *)

Module Toy.

Fixpoint split_loop (sep : N) (s : str) (cur : str) : list str :=
  match s with
  | [] => if truthy cur then [cur] else []
  | c :: s' =>
      if (c =? sep)%N
      then (if truthy cur then [cur] else []) ++ split_loop sep s' []
      else split_loop sep s' (cur ++ [c])
  end.

Definition split (sep : N) (s : str) : list str := split_loop sep s [].

Definition sentences (s : str) : list str := split 124 s.
Definition space_words (s : str) : list str := split 32 s.
Definition characters (s : str) : list str := map (λ c, [c]) s.
Definition ascii_letter (c : N) : bool :=
  ((65 <=? c) && (c <=? 90) || (97 <=? c) && (c <=? 122))%N.

Definition translate (s : str) : outcome str :=
  match s with
  | 33%N :: _ => Raise (Exception (lit "request failed"))
  | 126%N :: _ => Return []
  | 94%N :: _ => Return [122; 104; 0]%N
  | _ => Return (lit "zh:" ++ s)
  end.

Definition summarize (chunk : list str) : outcome (list str) :=
  Return (map (take 5) chunk).

Definition control (c : N) : bool :=
  ((c <? 32) && negb ((c =? 9) || (c =? 10) || (c =? 13)))%N.

Definition run_text_of (t : str) : outcome str :=
  if existsb control t
  then Raise (Exception (lit "All strings must be XML compatible"))
  else Return (map (λ c, if (c =? 13)%N then 10%N else c) t).

Definition external : External := {|
  sent_tokenize := sentences;
  word_tokenize := space_words;
  TOKENIZER_tokenize := characters;
  isalpha_char := ascii_letter;
  trans_translate := translate;
  SUMMARIZER := summarize;
  docx_run_text := run_text_of
|}.

(** A paragraph of one unformatted run. *)
Definition para (s : string) : Paragraph := mkParagraph [new_run (lit s)].

(** [n] copies of a word, separated by spaces. *)
Fixpoint words (n : nat) (w : str) : str :=
  match n with
  | O => []
  | S O => w
  | S n' => w ++ lit " " ++ words n' w
  end.

Definition para_words (n : nat) (w : string) : Paragraph :=
  mkParagraph [new_run (words n (lit w))].

(** A document of four paragraphs: a short one, one of 41 words, a blank
    one, and one whose translation is empty. *)
Definition sample_doc : list Paragraph :=
  [para "hello"; para_words 41 "ab"; para "   "; para "~what"].

(** [n] copies of the word [ab], then a number, a comma, a word with a
    digit and a full stop: [n + 4] words, of which [n] are alphabetic. *)
Definition para_mixed (n : nat) : Paragraph :=
  mkParagraph [new_run (words n (lit "ab") ++ lit " 12 , x1 .")].

(** What the script makes of the sample document: a translation run on
    the first paragraph, a translation run and a summary run on the
    second, and nothing on the others. *)
Definition sample_out : list Paragraph :=
  [ mkParagraph
      [new_run (lit "hello");
       mkRun ([10]%N ++ lit "zh:hello")
             (Some YAHEI) (Some YAHEI) (Some 139700%Z) (Some false)];
    mkParagraph
      [new_run (words 41 (lit "ab"));
       mkRun ([10]%N ++ lit "zh:" ++ words 41 (lit "ab"))
             (Some YAHEI) (Some YAHEI) (Some 139700%Z) (Some false);
       mkRun ([10; 27573; 33853; 24635; 32467; 65306]%N ++ lit "zh:ab ab")
             (Some YAHEI) (Some YAHEI) (Some 139700%Z) (Some true)];
    para "   ";
    para "~what" ].

(** A document whose second paragraph has a translation that the library
    cannot store. *)
Definition refused_doc : list Paragraph :=
  [para "hello"; para "^oops"; para "later"].

(** Three paragraphs: 41 alphabetic words among 45, 40 among 44, blank. *)
Definition boundary_doc : list Paragraph :=
  [para_mixed 41; para_mixed 40; para "   "].

(** Five candidates with the texts [t0] to [t4]. *)
Definition five_candidates : list Candidate :=
  map (λ i, mkCandidate i (lit "t" ++ [48 + N.of_nat i]%N) []) (seq 0 5).


End Toy.

(** ** More small instances

    A summariser that raises on a chunk holding a text that starts with
    [q]; a file system that is the list of its documents, where the suffix
    of a path is its last five characters; and a web in which a URL that
    starts with [!] cannot be fetched and every page has one heading and,
    in an [article] element, three paragraphs of which one is empty. *)

Module Lab.

Definition summarize (chunk : list str) : outcome (list str) :=
  if existsb (λ t, match t with 113%N :: _ => true | _ => false end) chunk
  then Raise (Exception (lit "out of memory"))
  else Return (map (take 5) chunk).

Definition flaky : External := {|
  sent_tokenize := Toy.sentences;
  word_tokenize := Toy.space_words;
  TOKENIZER_tokenize := Toy.characters;
  isalpha_char := Toy.ascii_letter;
  trans_translate := Toy.translate;
  SUMMARIZER := summarize;
  docx_run_text := Toy.run_text_of
|}.

Fixpoint lookup_file (fs : list (str * list Paragraph)) (f : str)
    : option (list Paragraph) :=
  match fs with
  | [] => None
  | (g, doc) :: fs' => if bool_decide (g = f) then Some doc else lookup_file fs' f
  end.

Definition ascii_lower (t : str) : str :=
  map (λ c, if ((65 <=? c) && (c <=? 90))%N then (c + 32)%N else c) t.

Definition disk : Files := {|
  FS := list (str * list Paragraph);
  Path_exists fs f := bool_decide (is_Some (lookup_file fs f));
  Path_suffix f := drop (length f - 5) f;
  Path_stem f := take (length f - 5) f;
  Path_with_name _ new_name := Return new_name;
  Path_resolve _ f := Return f;
  str_lower := ascii_lower;
  Document fs f :=
    match lookup_file fs f with
    | Some doc => Return doc
    | None => Raise (Exception (lit "no such file"))
    end;
  Document_save fs out doc := (Return tt, (out, doc) :: fs)
|}.

(** A document of five paragraphs of 41 words: two batches, of which the
    second holds a text that starts with [q]. *)
Definition two_batches : list Paragraph :=
  [Toy.para_words 41 "ab"; Toy.para_words 41 "cd"; Toy.para_words 41 "ef";
   Toy.para_words 41 "gh"; Toy.para_words 41 "qa"].

Definition shelf : list (str * list Paragraph) :=
  [(lit "long.docx", two_batches); (lit "notes.txt", [Toy.para "hello"])].

(** The command line is the output directory followed by the URLs; a
    directory that starts with [~] cannot be resolved. *)
Definition net : Web := {|
  parse_args argv :=
    match argv with
    | dir :: url :: urls' => Some (mkArgs (url :: urls') dir)
    | _ => None
    end;
  Path_expanduser_resolve _ dir :=
    match dir with
    | 126%N :: _ => Raise (Exception (lit "cannot determine home directory"))
    | _ => Return dir
    end;
  requests_get _ url :=
    match url with
    | 33%N :: _ => Raise (Exception (lit "connection refused"))
    | _ => Return (mkResponse None url)
    end;
  BeautifulSoup html :=
    Return (mkSoup (Some html) (Some (Some (lit "2024-05-06T07:08:09Z"))) []
                   None (Some [lit "first"; []; lit "second"]));
  re_search_date _ := None;
  Path_mkdir _ _ := Return tt;
  docx_call _ _ := Return tt
|}.

End Lab.

(** ** Specification vocabulary *)

(** A text that is empty or holds white space only. *)
Definition blank (s : str) : Prop := forallb isspace s = true.

(** A computation whose answer does not depend on the calls made before it:
    it returns [result_of m] and adds [calls_of m] to the log. *)
Definition oblivious {A} (m : M A) : Prop :=
  ∀ log, m log = (result_of m, log ++ calls_of m).

(** The chunks that reached the summariser, in the order of the calls. *)
Definition chunks_sent (log : list Call) : list (list str) :=
  omap (λ c, match c with
             | Summarize chunk => Some chunk
             | Translate _ => None
             end) log.

(** The [b]-th batch of a list, and the number of batches of [n] items. *)
Definition batch_of {A} (l : list A) (b : nat) : list A :=
  take BATCH_SIZE (drop (b * BATCH_SIZE) l).

Definition n_batches (n : nat) : nat := (n + (BATCH_SIZE - 1)) / BATCH_SIZE.

Definition batches {A} (l : list A) : list (list A) :=
  map (batch_of l) (seq 0 (n_batches (length l))).

(** The number of tokens of a text, and the sum over a list of sentences of
    the number of tokens of each. *)
Definition token_count {ext : External} (s : str) : Z :=
  Z.of_nat (length (TOKENIZER_tokenize s)).

Definition token_total {ext : External} (sents : list str) : Z :=
  Z.of_nat (sum_list_with (λ s, length (TOKENIZER_tokenize s)) sents).


(** A word of letters only: it is not empty and each of its characters is
    alphabetic. The alphabetic words of a text are those of its words, as
    [word_tokenize] splits it, that are of letters only. *)
Definition alphabetic {ext : External} (w : str) : Prop :=
  w ≠ [] ∧ Forall (λ c, isalpha_char c = true) w.

#[global] Instance alphabetic_dec {ext : External} (w : str) :
  Decision (alphabetic w).
Proof. unfold alphabetic. apply _. Defined.

Definition alphabetic_words {ext : External} (txt : str) : list str :=
  filter alphabetic (word_tokenize txt).

(** The translation of a text as the script takes it: nothing for a blank
    text, the answer of the translator when it answers, and the text
    itself when the translator raises. *)
Definition translated {ext : External} (t : str) : str :=
  if forallb isspace t then []
  else match trans_translate t with
       | Return v => v
       | Raise _ => t
       end.

(** A paragraph that candidate selection takes: its stripped text is not
    empty and has more than 40 alphabetic words. *)
Definition selected {ext : External} (p : Paragraph) : Prop :=
  strip (text p) ≠ [] ∧ 40 < alpha_words (strip (text p)).

#[global] Instance selected_dec {ext : External} (p : Paragraph) :
  Decision (selected p).
Proof. unfold selected. apply _. Defined.

(** The candidate of the paragraph [p] at the index [j], if it is taken. *)
Definition candidate_of {ext : External} (j : nat) (p : Paragraph)
    : option Candidate :=
  if decide (selected p) then Some (Candidate_init j (strip (text p))) else None.

(** What the write-back of a batch makes of the candidate [c] when the
    summariser's answer at its place is [out] (or has no entry there): the
    index and the text are as before, and the summary is the translation
    of the stripped answer (or as before). *)
Definition written {ext : External} (c : Candidate) (out : option str)
    (c' : Candidate) : Prop :=
  idx c' = idx c ∧
  truncated c' = truncated c ∧
  summary_zh c' = match out with
                  | Some o => translated (strip o)
                  | None => summary_zh c
                  end.

(** The batch [b] is written back from the candidates [cur] to [fin]: the
    summariser answered its chunk, and the candidate at the place [k] of the
    batch took the answer at the place [k]. *)
Definition batch_written {ext : External} (texts : list str)
    (cur fin : list Candidate) (b : nat) : Prop :=
  ∃ outs,
    SUMMARIZER (batch_of texts b) = Return outs ∧
    ∀ k c, k < BATCH_SIZE → cur !! (b * BATCH_SIZE + k) = Some c →
           ∃ c', fin !! (b * BATCH_SIZE + k) = Some c' ∧
                 written c (outs !! k) c'.

(** A run as the script formats it: the stored text, YaHei for both font
    names, 11 points, bold or not. *)
Definition yahei_run (stored : str) (b : bool) : Run :=
  mkRun stored (Some YAHEI) (Some YAHEI) (Some (Pt 11)) (Some b).

(** The two runs the script appends. [r] is the translation run of the
    translation [zh]: the library stored a line break followed by [zh], and
    the run is not bold. [r] is the summary run of the summary [s]: the
    library stored the label followed by [s], and the run is bold. *)
Definition translation_run {ext : External} (zh : str) (r : Run) : Prop :=
  ∃ stored, docx_run_text (NEWLINE ++ zh) = Return stored ∧
            r = yahei_run stored false.

Definition summary_run {ext : External} (s : str) (r : Run) : Prop :=
  ∃ stored, docx_run_text (SUMMARY_LABEL ++ s) = Return stored ∧
            r = yahei_run stored true.

(** The texts the merge asks the library to add to the paragraph [p] at the
    index [i], each with the boldness of its run, in order: for a paragraph
    that is not blank, the translation when it is not empty, then the
    summary of the table [m] at [i] when there is one and it is not
    empty. *)
Definition run_requests {ext : External} (m : gmap nat str) (i : nat)
    (p : Paragraph) : list (str * bool) :=
  if decide (strip (text p) = []) then []
  else
    (if decide (translated (strip (text p)) = []) then []
     else [(NEWLINE ++ translated (strip (text p)), false)])
    ++ match m !! i with
       | Some s => if decide (s = []) then [] else [(SUMMARY_LABEL ++ s, true)]
       | None => []
       end.

(** The runs the library makes of these requests, or the exception of the
    first text it cannot store. *)
Fixpoint stored_runs {ext : External} (reqs : list (str * bool))
    : outcome (list Run) :=
  match reqs with
  | [] => Return []
  | (t, b) :: reqs' =>
      match docx_run_text t with
      | Raise e => Raise e
      | Return stored =>
          match stored_runs reqs' with
          | Return rs => Return (yahei_run stored b :: rs)
          | Raise e => Raise e
          end
      end
  end.

(** A text the library can store, and all the texts the merge asks it to
    add to the document, in order. *)
Definition storable {ext : External} (t : str) : Prop :=
  ∃ stored, docx_run_text t = Return stored.

Definition run_texts {ext : External} (m : gmap nat str)
    (doc : list Paragraph) : list str :=
  concat (map (λ ip, map fst (run_requests m ip.1 ip.2)) (enumerate doc)).

(** The output paragraph [p'] starts with the runs of [p], and so its text
    starts with the text of [p]: what is new comes after. *)
Definition only_appended (p p' : Paragraph) : Prop :=
  runs p `prefix_of` runs p' ∧ text p `prefix_of` text p'.

(** The statement of C7 as the specification words it, for the paragraphs
    that are not blank: each of them gains a translation run. *)
Definition translation_always_appended {ext : External}
    (doc : list Paragraph) : Prop :=
  ∀ doc' log', process_docx doc [] = (Return doc', log') →
    ∀ i p, doc !! i = Some p → ¬ blank (text p) →
      ∃ zh r sm, translation_run zh r ∧
                 doc' !! i = Some (mkParagraph (runs p ++ [r] ++ sm)).

(** A character that [sanitize_filename] lets through: it is not of the
    reserved class and not white space. A plain character is moreover not
    the underscore, so that no step of [sanitize_filename] touches it. *)
Definition safe_char (c : N) : Prop := (c ∉ RESERVED) ∧ isspace c = false.

Definition plain_char (c : N) : Prop := safe_char c ∧ c ≠ UNDERSCORE.

#[global] Instance safe_char_dec (c : N) : Decision (safe_char c).
Proof. unfold safe_char. apply _. Defined.

#[global] Instance plain_char_dec (c : N) : Decision (plain_char c).
Proof. unfold plain_char. apply _. Defined.

(** The stripped texts of the paragraphs that are not blank, in order. *)
Definition stripped_texts (doc : list Paragraph) : list str :=
  filter (λ t, t ≠ []) (map (λ p, strip (text p)) doc).

(** Every batch of the texts is answered by the summariser. *)
Definition all_batches_answered {ext : External} (texts : list str) : Prop :=
  ∀ b, b < n_batches (length texts) →
       ∃ outs, SUMMARIZER (batch_of texts b) = Return outs.

(** The URLs requested, the lines reported and the paths saved to, in the
    order of the log. *)
Definition urls_requested (log : list Effect) : list str :=
  omap (λ ev, match ev with EvGet url => Some url | _ => None end) log.

Definition lines_reported (log : list Effect) : list Line :=
  omap (λ ev, match ev with EvReport line => Some line | _ => None end) log.

(** A path in the directory [out_dir] whose name ends with [.docx] and
    holds no slash and no backslash. *)
Definition docx_path_in (out_dir : str) (path : FilePath) : Prop :=
  parent path = out_dir ∧
  lit ".docx" `suffix_of` name path ∧
  (47%N ∉ name path) ∧ (92%N ∉ name path).

(** An effect of the saving of an article into [out_dir]: no request and
    no line; a call of [mkdir] is on [out_dir], with [parents] and
    [exist_ok]; a document saved goes to a [.docx] path in [out_dir]; the
    text of a call of [add_paragraph] is not empty; and a heading has the
    level 1 (its text may be empty). *)
Definition saving_effect (out_dir : str) (ev : Effect) : Prop :=
  match ev with
  | EvGet _ => False
  | EvReport _ => False
  | EvMkdir dir parents exist_ok =>
      dir = out_dir ∧ parents = true ∧ exist_ok = true
  | EvDocx (SaveDocument path) => docx_path_in out_dir path
  | EvDocx (AddParagraph t) => t ≠ []
  | EvDocx (AddHeading _ level) => level = 1%Z
  | EvDocx _ => True
  end.

(** What the loop of [main] may do when it writes into [out_dir]. *)
Definition main_effect (out_dir : str) (ev : Effect) : Prop :=
  match ev with
  | EvGet _ => True
  | EvReport (Saved path) => docx_path_in out_dir path
  | EvReport (Failed _ _) => True
  | _ => saving_effect out_dir ev
  end.

(** A computation that only adds effects of saving to the log. *)
Definition quiet_in (out_dir : str) {A} (m : F A) : Prop :=
  ∀ log, ∃ evs, (m log).2 = log ++ evs ∧ Forall (saving_effect out_dir) evs.

(** A computation that adds effects of saving and then either raises or
    reports a saved file and returns. *)
Definition reports_saved_in (out_dir : str) (m : F unit) : Prop :=
  ∀ log, ∃ evs,
    Forall (saving_effect out_dir) evs ∧
    ((∃ e, m log = (Raise e, log ++ evs)) ∨
     (∃ path, docx_path_in out_dir path ∧
              m log = (Return tt, log ++ evs ++ [EvReport (Saved path)]))).

(** The line reported for the URL [url]. *)
Definition line_of (url : str) (line : Line) : Prop :=
  match line with
  | Saved _ => True
  | Failed url' _ => url' = url
  end.

(** ** Strings *)

Section Strings.

Lemma truthy_false {A} (s : list A) : truthy s = false ↔ s = [].
Proof. destruct s; simpl; split; congruence. Qed.

Lemma truthy_true {A} (s : list A) : truthy s = true ↔ s ≠ [].
Proof. destruct s; simpl; split; congruence. Qed.

Lemma lstrip_blank (s : str) : blank s → lstrip s = [].
Proof.
  unfold blank. induction s as [|c s IH]; simpl; [done|].
  intros [Hc Hs]%andb_prop. rewrite Hc. auto.
Qed.

Lemma lstrip_nil_blank (s : str) : lstrip s = [] → blank s.
Proof.
  unfold blank. induction s as [|c s IH]; simpl; [done|].
  destruct (isspace c) eqn:Hc; [auto | discriminate].
Qed.

Lemma lstrip_head (s : str) :
  lstrip s = [] ∨ ∃ c s', lstrip s = c :: s' ∧ isspace c = false.
Proof.
  induction s as [|c s IH]; simpl; [by left|].
  destruct (isspace c) eqn:Hc; [done|]. right. eauto.
Qed.

Lemma blank_rev (s : str) : blank (rev s) ↔ blank s.
Proof.
  unfold blank. rewrite !forallb_forall. split; intros Hs c Hc; apply Hs.
  - by apply in_rev in Hc.
  - by apply in_rev.
Qed.

Lemma strip_blank (s : str) : blank s → strip s = [].
Proof. intros Hs. unfold strip. by rewrite (lstrip_blank s). Qed.

Lemma strip_nil_blank (s : str) : strip s = [] → blank s.
Proof.
  unfold strip, rstrip. intros Hs.
  assert (Hl : lstrip (rev (lstrip s)) = []).
  { rewrite <- (rev_involutive (lstrip (rev (lstrip s)))), Hs. done. }
  apply lstrip_nil_blank in Hl. apply (proj1 (blank_rev _)) in Hl.
  destruct (lstrip_head s) as [Hnil | (c & s' & Heq & Hc)].
  - by apply lstrip_nil_blank.
  - rewrite Heq in Hl. unfold blank in Hl. cbn [forallb] in Hl.
    apply andb_prop in Hl as [Hl _]. congruence.
Qed.

Lemma strip_nil_iff (s : str) : strip s = [] ↔ blank s.
Proof. split; [apply strip_nil_blank | apply strip_blank]. Qed.

End Strings.

(** ** The monad *)

Section Monad.

Context {A B : Type}.

Lemma oblivious_ret (a : A) : oblivious (mret a : M A).
Proof. intros log. unfold result_of, calls_of. simpl. by rewrite app_nil_r. Qed.

Lemma oblivious_bind (m : M A) (f : A → M B) :
  oblivious m → (∀ a, oblivious (f a)) → oblivious (m ≫= f).
Proof.
  intros Hm Hf log. unfold result_of, calls_of.
  unfold mbind, M_mbind, M_bind. rewrite (Hm log), (Hm []).
  destruct (result_of m) as [a|e]; simpl; [|done].
  rewrite (Hf a (log ++ calls_of m)), (Hf a (calls_of m)). simpl.
  by rewrite app_assoc.
Qed.

Lemma oblivious_try_except (m h : M A) :
  oblivious m → oblivious h → oblivious (try_except m h).
Proof.
  intros Hm Hh log. unfold result_of, calls_of, try_except.
  rewrite (Hm log), (Hm []).
  destruct (result_of m) as [a|e]; simpl; [done|].
  rewrite (Hh (log ++ calls_of m)), (Hh (calls_of m)). simpl.
  by rewrite app_assoc.
Qed.

Lemma bind_run (m : M A) (f : A → M B) (log : list Call) :
  (m ≫= f) log =
    match m log with
    | (Return a, log') => f a log'
    | (Raise e, log') => (Raise e, log')
    end.
Proof. reflexivity. Qed.

Lemma bind_result (m : M A) (f : A → M B) :
  (∀ a, oblivious (f a)) →
  result_of (m ≫= f) =
    match result_of m with
    | Return a => result_of (f a)
    | Raise e => Raise e
    end.
Proof.
  intros Hf. unfold result_of. rewrite bind_run.
  destruct (m []) as [[a|e] log']; simpl; [|done].
  by rewrite (Hf a log').
Qed.

Lemma bind_calls (m : M A) (f : A → M B) :
  (∀ a, oblivious (f a)) →
  calls_of (m ≫= f) =
    calls_of m ++
    match result_of m with
    | Return a => calls_of (f a)
    | Raise _ => []
    end.
Proof.
  intros Hf. unfold calls_of, result_of. rewrite bind_run.
  destruct (m []) as [[a|e] log']; simpl.
  - by rewrite (Hf a log').
  - by rewrite app_nil_r.
Qed.

Lemma ret_result (a : A) : result_of (mret a : M A) = Return a.
Proof. reflexivity. Qed.

Lemma ret_calls (a : A) : calls_of (mret a : M A) = [].
Proof. reflexivity. Qed.

End Monad.

(** ** Translation *)

Section Translation.

Context {ext : External}.

Lemma call_translate_oblivious (t : str) : oblivious (call_translate t).
Proof. intros log. reflexivity. Qed.

Lemma call_SUMMARIZER_oblivious (chunk : list str) :
  oblivious (call_SUMMARIZER chunk).
Proof. intros log. reflexivity. Qed.

Lemma translate_en2zh_oblivious (t : str) : oblivious (translate_en2zh t).
Proof.
  unfold translate_en2zh. destruct (negb (truthy (strip t))).
  - apply oblivious_ret.
  - apply oblivious_try_except;
      [apply call_translate_oblivious | apply oblivious_ret].
Qed.

Lemma translate_en2zh_blank (t : str) (log : list Call) :
  blank t → translate_en2zh t log = (Return [], log).
Proof.
  intros Ht%strip_blank. unfold translate_en2zh. by rewrite Ht.
Qed.

Lemma translate_en2zh_call (t : str) (log : list Call) :
  ¬ blank t →
  translate_en2zh t log =
    (Return (match trans_translate t with Return v => v | Raise _ => t end),
     log ++ [Translate t]).
Proof.
  intros Ht. unfold translate_en2zh.
  destruct (truthy (strip t)) eqn:Hs; simpl.
  - unfold try_except, call_translate. by destruct (trans_translate t).
  - apply truthy_false, strip_nil_blank in Hs. done.
Qed.

Lemma blank_dec (t : str) : {blank t} + {¬ blank t}.
Proof. unfold blank. destruct (forallb isspace t); [by left | by right]. Qed.

Lemma translate_en2zh_returns (t : str) (log : list Call) :
  ∃ v log', translate_en2zh t log = (Return v, log').
Proof.
  destruct (blank_dec t) as [Ht|Ht].
  - rewrite translate_en2zh_blank by done. eauto.
  - rewrite translate_en2zh_call by done. eauto.
Qed.

Lemma translate_en2zh_result (t : str) :
  ∃ v, result_of (translate_en2zh t) = Return v.
Proof.
  destruct (translate_en2zh_returns t []) as (v & log' & Hrun).
  exists v. unfold result_of. by rewrite Hrun.
Qed.

Lemma translate_en2zh_translated (t : str) :
  result_of (translate_en2zh t) = Return (translated t).
Proof.
  unfold result_of, translated. destruct (blank_dec t) as [Ht|Ht].
  - rewrite translate_en2zh_blank by done. unfold blank in Ht. by rewrite Ht.
  - rewrite translate_en2zh_call by done. unfold blank in Ht.
    by destruct (forallb isspace t).
Qed.

Lemma translate_en2zh_calls (t : str) :
  chunks_sent (calls_of (translate_en2zh t)) = [].
Proof.
  unfold calls_of. destruct (blank_dec t) as [Ht|Ht].
  - by rewrite translate_en2zh_blank.
  - by rewrite translate_en2zh_call.
Qed.

(** C5. [translate_en2zh] never raises, whatever the backend does; and on
    a text that reaches the backend (one that is not blank), if the backend
    raises then the call is made once and the text itself is returned. *)
Theorem translate_en2zh_failure_is_passthrough (t : str) (log : list Call) :
  (∃ v log', translate_en2zh t log = (Return v, log')) ∧
  (∀ e, trans_translate t = Raise e → ¬ blank t →
        translate_en2zh t log = (Return t, log ++ [Translate t])).
Proof.
  split; [apply translate_en2zh_returns|].
  intros e He Ht. rewrite translate_en2zh_call by done. by rewrite He.
Qed.

End Translation.

(** ** Truncation *)

Section Truncation.

Context {ext : External}.

Lemma token_total_nil : token_total [] = 0%Z.
Proof. reflexivity. Qed.

Lemma token_total_app (k1 k2 : list str) :
  token_total (k1 ++ k2) = (token_total k1 + token_total k2)%Z.
Proof. unfold token_total. rewrite sum_list_with_app. lia. Qed.

Lemma token_total_cons (s : str) (k : list str) :
  token_total (s :: k) = (token_count s + token_total k)%Z.
Proof. unfold token_total, token_count. simpl. lia. Qed.

Lemma token_total_nonneg (k : list str) : (0 ≤ token_total k)%Z.
Proof. unfold token_total. lia. Qed.

Lemma token_count_nonneg (s : str) : (0 ≤ token_count s)%Z.
Proof. unfold token_count. lia. Qed.

(** The loop keeps a prefix of the sentences: the running count stays
    within the budget, and the loop stops at the end of the sentences or at
    a sentence that would exceed the budget. *)
Lemma keep_sentences_spec (max_tokens : Z) (sents : list str) :
  ∀ (cur : Z) (kept0 : list str),
    ∃ kept dropped,
      sents = kept ++ dropped ∧
      keep_sentences max_tokens sents cur kept0 = kept0 ++ kept ∧
      (kept ≠ [] → (cur + token_total kept ≤ max_tokens)%Z) ∧
      (∀ s rest, dropped = s :: rest →
                 (max_tokens < cur + token_total kept + token_count s)%Z).
Proof.
  induction sents as [|s sents IH]; intros cur kept0.
  - exists [], []. simpl. rewrite app_nil_r. repeat split; done.
  - simpl. fold (token_count s).
    destruct (Z.ltb_spec max_tokens (cur + token_count s)) as [Hlt|Hle].
    + exists [], (s :: sents). rewrite app_nil_r, token_total_nil.
      repeat split; [done|]. intros s' rest [= <- <-]. lia.
    + destruct (IH (cur + token_count s)%Z (kept0 ++ [s]))
        as (kept & dropped & Hsplit & Hkeep & Hin & Hstop).
      exists (s :: kept), dropped. rewrite token_total_cons.
      repeat split.
      * by rewrite Hsplit.
      * by rewrite Hkeep, <- app_assoc.
      * intros _. destruct kept as [|s' kept'].
        -- rewrite token_total_nil. lia.
        -- specialize (Hin ltac:(done)). lia.
      * intros s' rest Hd. specialize (Hstop s' rest Hd). lia.
Qed.

(** A longer prefix of the sentences than the one kept includes the
    sentence at which the loop stopped. *)
Lemma longer_prefix_total (kept dropped kept' dropped' : list str) (s : str)
    (rest : list str) :
  kept ++ dropped = kept' ++ dropped' →
  dropped = s :: rest →
  length kept < length kept' →
  (token_total kept + token_count s ≤ token_total kept')%Z.
Proof.
  intros Heq -> Hlen.
  assert (Hk : kept' = kept ++ s :: take (length kept' - S (length kept)) rest).
  { transitivity (take (length kept') (kept' ++ dropped')).
    - by rewrite take_app_length.
    - rewrite <- Heq, take_app_ge by lia.
      replace (length kept' - length kept)
        with (S (length kept' - S (length kept))) by lia.
      done. }
  rewrite Hk, token_total_app, token_total_cons.
  pose proof (token_total_nonneg (take (length kept' - S (length kept)) rest)).
  lia.
Qed.

(** C4. [truncate_text_by_sentences] splits the text into sentences and
    keeps a prefix [kept] of them, whole: the per-sentence token counts of
    [kept] add up to at most 1024, the first dropped sentence (if any) would
    take the sum over 1024, and no longer prefix of the sentences stays
    within 1024. With at least one sentence kept the result is the kept
    sentences joined by single spaces, then ["..."]; with none kept it is
    the text itself. *)
Theorem truncate_text_by_sentences_keeps_longest_prefix (t : str) :
  ∃ kept dropped,
    sent_tokenize t = kept ++ dropped ∧
    (token_total kept ≤ 1024)%Z ∧
    (∀ s rest, dropped = s :: rest →
               (1024 < token_total kept + token_count s)%Z) ∧
    (∀ kept' dropped', sent_tokenize t = kept' ++ dropped' →
                       (token_total kept' ≤ 1024)%Z →
                       length kept' ≤ length kept) ∧
    (kept ≠ [] →
     truncate_text_by_sentences t MAX_INPUT_TOKENS
       = join (lit " ") kept ++ lit "...") ∧
    (kept = [] → truncate_text_by_sentences t MAX_INPUT_TOKENS = t).
Proof.
  destruct (keep_sentences_spec MAX_INPUT_TOKENS (sent_tokenize t) 0 [])
    as (kept & dropped & Hsplit & Hkeep & Hin & Hstop).
  unfold MAX_INPUT_TOKENS in *. simpl in Hkeep.
  exists kept, dropped. split_and!.
  - done.
  - destruct kept; [rewrite token_total_nil; lia | specialize (Hin ltac:(done)); lia].
  - intros s rest Hd. specialize (Hstop s rest Hd). lia.
  - intros kept' dropped' Hsplit' Hle.
    destruct (decide (length kept' ≤ length kept)) as [|Hlong]; [done|].
    destruct dropped as [|s rest].
    + apply (f_equal length) in Hsplit, Hsplit'.
      rewrite Hsplit, !length_app in Hsplit'. simpl in Hsplit'. lia.
    + pose proof (longer_prefix_total kept (s :: rest) kept' dropped' s rest)
        as Hlonger.
      rewrite <- Hsplit, <- Hsplit' in Hlonger.
      specialize (Hlonger eq_refl eq_refl ltac:(lia)).
      specialize (Hstop s rest eq_refl). lia.
  - intros Hne. unfold truncate_text_by_sentences, MAX_INPUT_TOKENS.
    rewrite Hkeep. by destruct kept.
  - intros ->. unfold truncate_text_by_sentences, MAX_INPUT_TOKENS.
    by rewrite Hkeep.
Qed.

(** C8. A candidate built from a text of at most 1024 tokens carries the
    text as it is, and [truncate_text_by_sentences] decides the field only
    for a text of more than 1024 tokens. *)
Theorem Candidate_init_within_budget_untouched (i : nat) (t : str) :
  (token_count t ≤ 1024)%Z →
  truncated (Candidate_init i t) = t ∧
  idx (Candidate_init i t) = i ∧
  summary_zh (Candidate_init i t) = [] ∧
  ∀ t', (1024 < token_count t')%Z →
        truncated (Candidate_init i t')
          = truncate_text_by_sentences t' MAX_INPUT_TOKENS.
Proof.
  intros Hle. unfold Candidate_init, MAX_INPUT_TOKENS. simpl. split_and!.
  - fold (token_count t). by destruct (Z.ltb_spec 1024 (token_count t)); [lia|].
  - done.
  - done.
  - intros t' Hgt. fold (token_count t').
    by destruct (Z.ltb_spec 1024 (token_count t')); [|lia].
Qed.

End Truncation.

(** ** Candidate selection *)

Section Selection.

Context {ext : External}.

Lemma elem_of_enumerate_from {A} (l : list A) :
  ∀ (i k : nat) (x : A),
    (k, x) ∈ enumerate_from i l ↔ ∃ j, k = i + j ∧ l !! j = Some x.
Proof.
  induction l as [|y l IH]; intros i k x; simpl.
  - split; [by intros ?%elem_of_nil | by intros (j & _ & ?)].
  - rewrite elem_of_cons, IH. split.
    + intros [[= -> ->] | (j & -> & Hj)].
      * exists 0. split; [lia | done].
      * exists (S j). split; [lia | done].
    + intros ([|j] & -> & Hj); simpl in Hj.
      * left. injection Hj as ->. f_equal. lia.
      * right. exists j. split; [lia | done].
Qed.

Lemma collect_loop_omap (ps : list Paragraph) :
  ∀ (i : nat) (cands : list Candidate),
    collect_loop (enumerate_from i ps) cands
      = cands ++ omap (uncurry candidate_of) (enumerate_from i ps).
Proof.
  induction ps as [|p ps IH]; intros i cands; simpl.
  - by rewrite app_nil_r.
  - unfold candidate_of at 1, selected, MIN_WORDS.
    destruct (truthy (strip (text p))) eqn:Htxt; simpl.
    + apply truthy_true in Htxt.
      destruct (Nat.ltb_spec 40 (alpha_words (strip (text p)))) as [Hw|Hw].
      * rewrite decide_True by done. rewrite IH, <- app_assoc. done.
      * rewrite decide_False by (intros [_ ?]; lia). apply IH.
    + apply truthy_false in Htxt.
      rewrite decide_False by (by intros [? _]). apply IH.
Qed.

Lemma collect_candidates_omap (ps : list Paragraph) :
  collect_candidates ps = omap (uncurry candidate_of) (enumerate ps).
Proof. unfold collect_candidates, enumerate. by rewrite collect_loop_omap. Qed.

Lemma elem_of_collect_candidates (ps : list Paragraph) (c : Candidate) :
  c ∈ collect_candidates ps ↔
  ∃ j p, ps !! j = Some p ∧ selected p ∧ c = Candidate_init j (strip (text p)).
Proof.
  rewrite collect_candidates_omap, list_elem_of_omap. split.
  - intros ([k p] & Hin & Hc). apply elem_of_enumerate_from in Hin as (j & -> & Hj).
    simpl in Hc. unfold candidate_of in Hc. case_decide; [|done].
    injection Hc as <-. eauto.
  - intros (j & p & Hj & Hsel & ->). exists (j, p). split.
    + apply elem_of_enumerate_from. eauto.
    + simpl. unfold candidate_of. by rewrite decide_True.
Qed.

Lemma collect_idx_bounds (ps : list Paragraph) (i : nat) :
  Forall (λ c, i ≤ idx c < i + length ps)
         (omap (uncurry candidate_of) (enumerate_from i ps)).
Proof.
  apply Forall_forall. intros c ([k p] & Hin & Hc)%list_elem_of_omap.
  apply elem_of_enumerate_from in Hin as (j & -> & Hj).
  apply lookup_lt_Some in Hj. simpl in Hc. unfold candidate_of in Hc.
  case_decide; [|done]. injection Hc as <-. simpl. lia.
Qed.

Lemma candidates_cons_selected (i : nat) (p : Paragraph) (ps : list Paragraph) :
  selected p →
  omap (uncurry candidate_of) (enumerate_from i (p :: ps))
  = Candidate_init i (strip (text p))
      :: omap (uncurry candidate_of) (enumerate_from (S i) ps).
Proof. intros Hp. simpl. unfold candidate_of at 1. by rewrite decide_True. Qed.

Lemma candidates_cons_skipped (i : nat) (p : Paragraph) (ps : list Paragraph) :
  ¬ selected p →
  omap (uncurry candidate_of) (enumerate_from i (p :: ps))
  = omap (uncurry candidate_of) (enumerate_from (S i) ps).
Proof. intros Hp. simpl. unfold candidate_of at 1. by rewrite decide_False. Qed.

Lemma collect_idx_sorted (ps : list Paragraph) :
  ∀ i, StronglySorted lt
         (map idx (omap (uncurry candidate_of) (enumerate_from i ps))).
Proof.
  induction ps as [|p ps IH]; intros i; [constructor|].
  destruct (decide (selected p)) as [Hp|Hp].
  - rewrite candidates_cons_selected by done. constructor; [apply IH|].
    apply Forall_fmap, (Forall_impl _ _ _ (collect_idx_bounds ps (S i))).
    intros c Hc. simpl. lia.
  - rewrite candidates_cons_skipped by done. apply IH.
Qed.

Lemma collect_selected_texts (ps : list Paragraph) :
  ∀ i j,
    map truncated
        (omap (uncurry candidate_of) (enumerate_from i (filter selected ps)))
    = map truncated (omap (uncurry candidate_of) (enumerate_from j ps)).
Proof.
  induction ps as [|p ps IH]; intros i j; [done|].
  destruct (decide (selected p)) as [Hp|Hp].
  - rewrite filter_cons_True, !candidates_cons_selected by done.
    simpl. f_equal. apply IH.
  - rewrite filter_cons_False, candidates_cons_skipped by done. apply IH.
Qed.

Lemma collect_selected_idx (ps : list Paragraph) :
  ∀ i, Forall selected ps →
       map idx (omap (uncurry candidate_of) (enumerate_from i ps))
       = seq i (length ps).
Proof.
  induction ps as [|p ps IH]; intros i Hall; [done|].
  apply Forall_cons in Hall as [Hp Hall].
  rewrite candidates_cons_selected by done. simpl. f_equal. by apply IH.
Qed.

Lemma candidate_of_text (j : nat) (p p' : Paragraph) :
  text p = text p' → candidate_of j p = candidate_of j p'.
Proof.
  intros Ht. unfold candidate_of.
  destruct (decide (selected p)) as [Hp|Hp], (decide (selected p')) as [Hp'|Hp'];
    unfold selected in *; rewrite Ht in *; done.
Qed.

Lemma collect_same_texts (ps : list Paragraph) :
  ∀ ps' i, map text ps' = map text ps →
           omap (uncurry candidate_of) (enumerate_from i ps')
           = omap (uncurry candidate_of) (enumerate_from i ps).
Proof.
  induction ps as [|p ps IH]; intros [|p' ps'] i Heq; try done.
  injection Heq as Hp Hps.
  change (enumerate_from i (p' :: ps'))
    with ((i, p') :: enumerate_from (S i) ps').
  change (enumerate_from i (p :: ps)) with ((i, p) :: enumerate_from (S i) ps).
  cbn [omap list_omap uncurry].
  change (list_omap _ _ ?f ?l) with (omap f l).
  by rewrite (candidate_of_text i p' p Hp), (IH ps' (S i) Hps).
Qed.

Lemma Forall_selected_filter (ps : list Paragraph) :
  Forall selected (filter selected ps).
Proof. apply Forall_forall. by intros p [Hp _]%list_elem_of_filter. Qed.

(** [w.isalpha()] holds of the words of letters only, so the count the
    script compares with [MIN_WORDS] is the number of alphabetic words:
    a word with a digit or a punctuation mark, and the empty word, are not
    counted. *)
Lemma isalpha_alphabetic (w : str) : isalpha w = true ↔ alphabetic w.
Proof.
  unfold isalpha, alphabetic. rewrite andb_true_iff, truthy_true.
  apply and_iff_compat_l. induction w as [|c w IH]; simpl.
  - split; [constructor | done].
  - rewrite andb_true_iff, IH, Forall_cons. done.
Qed.

Lemma alpha_words_alphabetic (txt : str) :
  alpha_words txt = length (alphabetic_words txt).
Proof.
  unfold alpha_words, alphabetic_words. f_equal.
  apply list_filter_iff. intros w. apply isalpha_alphabetic.
Qed.

(** C3. A candidate with the index [i] is produced exactly when the
    paragraph at [i] has a stripped text that is not empty and more than 40
    alphabetic words: words, as [word_tokenize] gives them, that are not
    empty and hold alphabetic characters only. So a paragraph of 41 such
    words is taken (when it is not blank), one of 40 is not, however many
    other words it has, and a blank paragraph never is. *)
Theorem collect_candidates_takes_more_than_40_words
    (ps : list Paragraph) (i : nat) :
  ((∃ c, c ∈ collect_candidates ps ∧ idx c = i) ↔
   (∃ p, ps !! i = Some p ∧ strip (text p) ≠ [] ∧
         40 < length (alphabetic_words (strip (text p))))) ∧
  (∀ p, ps !! i = Some p →
        (length (alphabetic_words (strip (text p))) = 41 → ¬ blank (text p) →
         Candidate_init i (strip (text p)) ∈ collect_candidates ps) ∧
        (length (alphabetic_words (strip (text p))) = 40 →
         ¬ ∃ c, c ∈ collect_candidates ps ∧ idx c = i) ∧
        (blank (text p) →
         ¬ ∃ c, c ∈ collect_candidates ps ∧ idx c = i)).
Proof.
  assert (Hiff : (∃ c, c ∈ collect_candidates ps ∧ idx c = i) ↔
                 (∃ p, ps !! i = Some p ∧ selected p)).
  { split.
    - intros (c & (j & p & Hj & Hp & ->)%elem_of_collect_candidates & <-). eauto.
    - intros (p & Hi & Hp). exists (Candidate_init i (strip (text p))).
      split; [|done]. apply elem_of_collect_candidates. eauto. }
  split.
  { rewrite Hiff. unfold selected.
    split; intros (p & Hp & Hne & Hw); exists p;
      [rewrite <- alpha_words_alphabetic | rewrite alpha_words_alphabetic];
      done. }
  intros p Hi. rewrite <- alpha_words_alphabetic. split_and!.
  - intros Hw Hb. apply elem_of_collect_candidates. exists i, p.
    split_and!; [done| |done]. split; [|lia].
    by intros ?%strip_nil_blank.
  - intros Hw (q & Hq & _ & Hlt)%Hiff. rewrite Hi in Hq. injection Hq as <-. lia.
  - intros Hb (q & Hq & Hne & _)%Hiff. rewrite Hi in Hq. injection Hq as <-.
    by apply Hne, strip_blank.
Qed.

(** C9. [collect_candidates] calls no backend and changes no paragraph (it
    is a function outside the monad). The indices of its candidates are
    strictly increasing, so they come in document order and none occurs
    twice; every candidate is the one built from the paragraph at its
    index; the list depends on the texts of the paragraphs only, so that a
    second pass over the same paragraphs gives the same list; and selection
    is idempotent as a filter: a pass over the paragraphs taken, in their
    order, takes every one of them and gives the same candidate texts. *)
Theorem collect_candidates_is_order_preserving_filter (ps : list Paragraph) :
  StronglySorted lt (map idx (collect_candidates ps)) ∧
  (∀ c, c ∈ collect_candidates ps →
        ∃ p, ps !! idx c = Some p ∧
             c = Candidate_init (idx c) (strip (text p))) ∧
  (∀ ps', map text ps' = map text ps →
          collect_candidates ps' = collect_candidates ps) ∧
  map truncated (collect_candidates (filter selected ps))
    = map truncated (collect_candidates ps) ∧
  map idx (collect_candidates (filter selected ps))
    = seq 0 (length (collect_candidates ps)).
Proof.
  assert (Htexts : map truncated (collect_candidates (filter selected ps))
                   = map truncated (collect_candidates ps)).
  { rewrite !collect_candidates_omap. apply collect_selected_texts. }
  assert (Hidx : map idx (collect_candidates (filter selected ps))
                 = seq 0 (length (filter selected ps))).
  { rewrite collect_candidates_omap.
    apply collect_selected_idx, Forall_selected_filter. }
  split_and!.
  - rewrite collect_candidates_omap. apply collect_idx_sorted.
  - intros c (j & p & Hj & _ & ->)%elem_of_collect_candidates. eauto.
  - intros ps' Heq. rewrite !collect_candidates_omap.
    by apply collect_same_texts.
  - exact Htexts.
  - rewrite Hidx. f_equal.
    apply (f_equal length) in Htexts, Hidx.
    rewrite !length_map in Htexts. rewrite length_map, length_seq in Hidx.
    lia.
Qed.

End Selection.

(** ** Batch summarisation *)

Section Batches.

Context {ext : External}.

Lemma write_back_oblivious (cs : list Candidate) :
  ∀ outs, oblivious (write_back cs outs).
Proof.
  induction cs as [|c cs IH]; intros [|out outs]; simpl;
    try apply oblivious_ret.
  apply oblivious_bind; [apply translate_en2zh_oblivious|]. intros zh.
  apply oblivious_bind; [apply IH|]. intros rest. apply oblivious_ret.
Qed.

(** The write-back of one batch returns as many candidates as it is given,
    each as [written] says, and calls the translator only. *)
Lemma write_back_spec (cs : list Candidate) :
  ∀ outs,
    ∃ cs', result_of (write_back cs outs) = Return cs' ∧
           length cs' = length cs ∧
           (∀ k c, cs !! k = Some c →
                   ∃ c', cs' !! k = Some c' ∧ written c (outs !! k) c') ∧
           chunks_sent (calls_of (write_back cs outs)) = [].
Proof.
  induction cs as [|c cs IH]; intros outs.
  - exists []. destruct outs; simpl; split_and!; try done;
      by intros k c ?%lookup_nil_Some.
  - destruct outs as [|out outs].
    + exists (c :: cs). simpl. split_and!; try done.
      intros k c0 Hk. exists c0. split; [done|]. by destruct k.
    + destruct (IH outs) as (cs' & Hres & Hlen & Hpos & Hcalls).
      pose proof (translate_en2zh_translated (strip out)) as Hzh.
      exists (set_summary_zh c (translated (strip out)) :: cs').
      cbn [write_back].
      assert (Hobl : ∀ zh0, oblivious (rest ← write_back cs outs;
                                       mret (set_summary_zh c zh0 :: rest))).
      { intros zh0. apply oblivious_bind; [apply write_back_oblivious|].
        intros rest. apply oblivious_ret. }
      split_and!.
      * rewrite bind_result, Hzh by done.
        rewrite bind_result, Hres by (intros; apply oblivious_ret). done.
      * simpl. by rewrite Hlen.
      * intros [|k] c0 Hk; simpl in *.
        -- injection Hk as <-. eexists. split; [done|]. by split_and!.
        -- apply Hpos, Hk.
      * rewrite bind_calls, Hzh by done. unfold chunks_sent.
        rewrite omap_app. fold (chunks_sent (calls_of (translate_en2zh (strip out)))).
        rewrite translate_en2zh_calls. simpl.
        rewrite bind_calls, Hres by (intros; apply oblivious_ret).
        rewrite ret_calls, app_nil_r. apply Hcalls.
Qed.

Lemma n_batches_le (n b : nat) : n_batches n ≤ b ↔ n ≤ b * BATCH_SIZE.
Proof.
  unfold n_batches. change BATCH_SIZE with 4. change (4 - 1) with 3.
  pose proof (Nat.div_mod_eq (n + 3) 4) as Hdiv.
  pose proof (Nat.mod_upper_bound (n + 3) 4 ltac:(lia)) as Hmod.
  lia.
Qed.

Lemma range_from_batches (fuel : nat) :
  ∀ b0 stop,
    stop ≤ b0 * BATCH_SIZE + fuel →
    range_from fuel (b0 * BATCH_SIZE) stop BATCH_SIZE
    = map (λ b, b * BATCH_SIZE) (seq b0 (n_batches stop - b0)).
Proof.
  induction fuel as [|fuel IH]; intros b0 stop Hfuel.
  - replace (n_batches stop - b0) with 0; [done|].
    pose proof (proj2 (n_batches_le stop b0)). lia.
  - simpl. destruct (Nat.ltb_spec (b0 * BATCH_SIZE) stop) as [Hlt|Hge].
    + assert (Hnb : b0 < n_batches stop).
      { destruct (decide (b0 < n_batches stop)) as [|Hn]; [done|].
        pose proof (proj1 (n_batches_le stop b0)). lia. }
      replace (n_batches stop - b0) with (S (n_batches stop - S b0)) by lia.
      simpl. f_equal.
      replace (b0 * BATCH_SIZE + BATCH_SIZE) with (S b0 * BATCH_SIZE) by lia.
      apply IH. unfold BATCH_SIZE in *. lia.
    + replace (n_batches stop - b0) with 0; [done|].
      pose proof (proj2 (n_batches_le stop b0)). lia.
Qed.

Lemma range_batches (n : nat) :
  range 0 n BATCH_SIZE = map (λ b, b * BATCH_SIZE) (seq 0 (n_batches n)).
Proof.
  unfold range. change 0 with (0 * BATCH_SIZE) at 1.
  rewrite (range_from_batches n 0 n) by lia. by rewrite Nat.sub_0_r.
Qed.

Lemma slice_batch {A} (l : list A) (b : nat) :
  slice l (b * BATCH_SIZE) (b * BATCH_SIZE + BATCH_SIZE) = batch_of l b.
Proof.
  unfold slice, batch_of.
  by replace (b * BATCH_SIZE + BATCH_SIZE - b * BATCH_SIZE) with BATCH_SIZE by lia.
Qed.

Lemma length_batch_of {A} (l : list A) (b : nat) :
  length (batch_of l b) = BATCH_SIZE `min` (length l - b * BATCH_SIZE).
Proof. unfold batch_of. by rewrite length_take, length_drop. Qed.

(** A batch written back in place: the list keeps its length, the places of
    the batch hold what was written, and the other places are as before. *)
Section Splice.

Context {A : Type} (cur w : list A) (b : nat).
Hypothesis Hw : length w = length (batch_of cur b).

Let a := b * BATCH_SIZE.
Let spliced := take a cur ++ w ++ drop (a + BATCH_SIZE) cur.

Lemma splice_length : length spliced = length cur.
Proof.
  subst spliced a. rewrite length_batch_of in Hw.
  rewrite !length_app, length_take, length_drop. lia.
Qed.

Lemma splice_lookup_in (k : nat) :
  k < BATCH_SIZE → spliced !! (a + k) = w !! k.
Proof.
  intros Hk. pose proof splice_length as Hlen.
  subst spliced a. rewrite length_batch_of in Hw.
  destruct (decide (k < length w)) as [Hkw|Hkw].
  - rewrite lookup_app_r by (rewrite length_take; lia).
    rewrite length_take.
    replace (b * BATCH_SIZE + k - (b * BATCH_SIZE) `min` length cur)
      with k by lia.
    by rewrite lookup_app_l.
  - rewrite (lookup_ge_None_2 w) by lia. apply lookup_ge_None_2. lia.
Qed.

Lemma splice_lookup_out (j : nat) :
  j < a ∨ a + BATCH_SIZE ≤ j → spliced !! j = cur !! j.
Proof.
  intros Hj. pose proof splice_length as Hlen.
  destruct (decide (j < length cur)) as [Hin|Hout].
  - subst spliced a. rewrite length_batch_of in Hw.
    destruct Hj as [Hj|Hj].
    + rewrite lookup_app_l by (rewrite length_take; lia).
      by rewrite lookup_take_lt.
    + rewrite lookup_app_r by (rewrite length_take; lia).
      rewrite lookup_app_r by (rewrite length_take; lia).
      rewrite lookup_drop, length_take. f_equal. lia.
  - rewrite (lookup_ge_None_2 cur) by lia. apply lookup_ge_None_2. lia.
Qed.

End Splice.

Lemma batch_loop_oblivious (texts : list str) (starts : list nat) :
  ∀ cur, oblivious (batch_loop starts texts cur).
Proof.
  induction starts as [|start starts IH]; intros cur; simpl.
  - apply oblivious_ret.
  - apply oblivious_bind; [apply call_SUMMARIZER_oblivious|]. intros outs.
    apply oblivious_bind; [apply write_back_oblivious|]. intros w. apply IH.
Qed.

Lemma batch_loop_step (texts : list str) (b : nat) (starts : list nat)
    (cur : list Candidate) :
  let run := batch_loop (b * BATCH_SIZE :: starts) texts cur in
  match SUMMARIZER (batch_of texts b) with
  | Raise e =>
      result_of run = Raise e ∧
      chunks_sent (calls_of run) = [batch_of texts b]
  | Return outs =>
      ∃ w, result_of (write_back (batch_of cur b) outs) = Return w ∧
           let next :=
             batch_loop starts texts
               (take (b * BATCH_SIZE) cur ++ w
                  ++ drop (b * BATCH_SIZE + BATCH_SIZE) cur) in
           result_of run = result_of next ∧
           chunks_sent (calls_of run)
             = batch_of texts b :: chunks_sent (calls_of next)
  end.
Proof.
  cbn zeta. cbn [batch_loop]. rewrite !slice_batch.
  assert (Hk : ∀ outs, oblivious
            (updated ← write_back (batch_of cur b) outs;
             batch_loop starts texts
               (take (b * BATCH_SIZE) cur ++ updated
                  ++ drop (b * BATCH_SIZE + BATCH_SIZE) cur))).
  { intros outs. apply oblivious_bind; [apply write_back_oblivious|].
    intros w. apply batch_loop_oblivious. }
  rewrite bind_result, bind_calls by done.
  change (result_of (call_SUMMARIZER (batch_of texts b)))
    with (SUMMARIZER (batch_of texts b)).
  change (calls_of (call_SUMMARIZER (batch_of texts b)))
    with [Summarize (batch_of texts b)].
  destruct (SUMMARIZER (batch_of texts b)) as [outs|e]; [|done].
  destruct (write_back_spec (batch_of cur b) outs) as (w & Hres & _ & _ & Hcalls).
  exists w. split; [done|].
  rewrite bind_result, bind_calls, Hres
    by (intros; apply batch_loop_oblivious).
  split; [done|]. unfold chunks_sent in *. simpl.
  by rewrite omap_app, Hcalls.
Qed.

(** The loop over the batches [b0 .. b0 + m - 1]: the chunks sent are the
    batches of the texts, in order, up to the first call that raises; and a
    run that returns has written back every batch and nothing else. *)
Lemma batch_loop_spec (texts : list str) (m : nat) :
  ∀ (b0 : nat) (cur : list Candidate),
    let run :=
      batch_loop (map (λ b, b * BATCH_SIZE) (seq b0 m)) texts cur in
    chunks_sent (calls_of run) `prefix_of` map (batch_of texts) (seq b0 m) ∧
    ∀ fin, result_of run = Return fin →
      chunks_sent (calls_of run) = map (batch_of texts) (seq b0 m) ∧
      length fin = length cur ∧
      (∀ b, b0 ≤ b < b0 + m → batch_written texts cur fin b) ∧
      (∀ j, j < b0 * BATCH_SIZE ∨ (b0 + m) * BATCH_SIZE ≤ j →
            fin !! j = cur !! j).
Proof.
  induction m as [|m IH]; intros b0 cur; cbn zeta.
  - simpl. split; [done|]. intros fin [= <-]. split_and!; try done.
    intros b Hb. lia.
  - cbn [seq map].
    pose proof (batch_loop_step texts b0
                  (map (λ b, b * BATCH_SIZE) (seq (S b0) m)) cur) as Hstep.
    cbn zeta in Hstep.
    destruct (SUMMARIZER (batch_of texts b0)) as [outs|e] eqn:Hsum.
    + destruct Hstep as (w & Hw & Hres & Hcalls).
      destruct (write_back_spec (batch_of cur b0) outs)
        as (w' & Hw' & Hlen & Hpos & _).
      rewrite Hw in Hw'. injection Hw' as <-.
      set (next := take (b0 * BATCH_SIZE) cur ++ w
                     ++ drop (b0 * BATCH_SIZE + BATCH_SIZE) cur) in *.
      destruct (IH (S b0) next) as [Hpre Hfin]. cbn zeta in Hpre, Hfin.
      rewrite Hres, Hcalls. split; [by apply prefix_cons|].
      intros fin Hret.
      destruct (Hfin fin Hret) as (Hall & Hlenf & Hrest & Hout).
      assert (Hnext_len : length next = length cur)
        by (apply splice_length; done).
      split_and!.
      * by rewrite Hall.
      * lia.
      * intros b Hb. destruct (decide (b = b0)) as [->|Hne].
        -- exists outs. split; [done|]. intros k c Hk Hc.
           rewrite Hout by lia. unfold next.
           rewrite (splice_lookup_in cur w b0 Hlen k Hk).
           apply Hpos. unfold batch_of.
           rewrite lookup_take_lt, lookup_drop by done. done.
        -- destruct (Hrest b ltac:(lia)) as (outs' & Hsum' & Hk').
           exists outs'. split; [done|]. intros k c Hk Hc. apply Hk'; [done|].
           unfold next. rewrite splice_lookup_out; [done|done|].
           right. unfold BATCH_SIZE in *. nia.
      * intros j Hj. rewrite Hout by lia. unfold next.
        apply splice_lookup_out; [done|]. lia.
    + destruct Hstep as [Hres Hcalls]. rewrite Hres, Hcalls.
      split; [apply prefix_cons, prefix_nil | done].
Qed.




Lemma batch_summarize_cons (c : Candidate) (cands : list Candidate) :
  batch_summarize (c :: cands)
  = batch_loop (map (λ b, b * BATCH_SIZE)
                    (seq 0 (n_batches (length (map truncated (c :: cands))))))
               (map truncated (c :: cands)) (c :: cands).
Proof. rewrite <- range_batches. reflexivity. Qed.

Lemma batch_summarize_returns (cands fin : list Candidate) (log : list Call) :
  (batch_summarize cands log).1 = Return fin →
  length fin = length cands ∧
  ∀ b, b < n_batches (length cands) →
       batch_written (map truncated cands) cands fin b.
Proof.
  intros Hret. destruct cands as [|c cands'].
  { injection Hret as <-. split; [done|]. intros b Hb.
    unfold n_batches in Hb. simpl in Hb. lia. }
  rewrite batch_summarize_cons, batch_loop_oblivious in Hret.
  simpl fst in Hret.
  destruct (batch_loop_spec (map truncated (c :: cands'))
              (n_batches (length (map truncated (c :: cands')))) 0
              (c :: cands')) as [_ Hfin].
  destruct (Hfin fin Hret) as (_ & Hlen & Hrest & _).
  split; [done|]. intros b Hb. apply Hrest.
  rewrite length_map. lia.
Qed.

Lemma written_fields (c c' : Candidate) (out : option (list N)) :
  written c out c' → idx c' = idx c ∧ truncated c' = truncated c.
Proof. by intros (Hi & Ht & _). Qed.

Lemma written_blank (c c' : Candidate) (o : list N) :
  blank o → written c (Some o) c' → summary_zh c' = [].
Proof.
  intros Hb (_ & _ & ->). unfold translated.
  by rewrite (strip_blank o Hb).
Qed.

(** Place by place: the candidate at [j] took the answer at the place
    [j mod 4] of the batch [j / 4]. *)
Lemma batch_summarize_pointwise (cands fin : list Candidate) (log : list Call) :
  (batch_summarize cands log).1 = Return fin →
  length fin = length cands ∧
  ∀ j c, cands !! j = Some c →
         ∃ outs c',
           SUMMARIZER (batch_of (map truncated cands) (j / BATCH_SIZE))
             = Return outs ∧
           fin !! j = Some c' ∧
           written c (outs !! (j mod BATCH_SIZE)) c'.
Proof.
  intros Hret. destruct (batch_summarize_returns cands fin log Hret)
    as [Hlen Hbatches].
  split; [done|]. intros j c Hj.
  pose proof (lookup_lt_Some _ _ _ Hj) as Hlt.
  pose proof (Nat.div_mod_eq j BATCH_SIZE) as Hdiv.
  pose proof (Nat.mod_upper_bound j BATCH_SIZE ltac:(done)) as Hmod.
  assert (Hb : j / BATCH_SIZE < n_batches (length cands)).
  { destruct (decide (j / BATCH_SIZE < n_batches (length cands))) as [|Hn];
      [done|].
    pose proof (proj1 (n_batches_le (length cands) (j / BATCH_SIZE))). lia. }
  destruct (Hbatches _ Hb) as (outs & Hsum & Hpos).
  assert (Hjeq : j / BATCH_SIZE * BATCH_SIZE + j mod BATCH_SIZE = j) by lia.
  specialize (Hpos (j mod BATCH_SIZE) c Hmod). rewrite Hjeq in Hpos.
  destruct (Hpos Hj) as (c' & Hc' & Hw). eauto.
Qed.

Lemma batch_summarize_idx (cands fin : list Candidate) (log : list Call) :
  (batch_summarize cands log).1 = Return fin →
  map idx fin = map idx cands.
Proof.
  intros Hret. destruct (batch_summarize_pointwise cands fin log Hret)
    as [Hlen Hpos].
  apply list_eq. intros j. rewrite !list_lookup_fmap.
  destruct (cands !! j) as [c|] eqn:Hj.
  - destruct (Hpos j c Hj) as (outs & c' & _ & -> & Hw).
    apply written_fields in Hw as [Hi _]. simpl. by rewrite Hi.
  - apply lookup_ge_None in Hj. rewrite lookup_ge_None_2 by lia. done.
Qed.




End Batches.

(** ** Merge *)

Section Merge.

Context {ext : External}.

Lemma add_run_oblivious (p : Paragraph) (t : str) (fmt : Run → Run) :
  oblivious (add_run p t fmt).
Proof.
  intros log. unfold result_of, calls_of, add_run.
  destruct (docx_run_text t); simpl; by rewrite app_nil_r.
Qed.

Lemma add_run_result (p : Paragraph) (t : str) (fmt : Run → Run) :
  result_of (add_run p t fmt) =
    match docx_run_text t with
    | Return stored => Return (mkParagraph (runs p ++ [fmt (new_run stored)]))
    | Raise e => Raise e
    end.
Proof. unfold result_of, add_run. by destruct (docx_run_text t). Qed.

Lemma add_run_calls (p : Paragraph) (t : str) (fmt : Run → Run) :
  calls_of (add_run p t fmt) = [].
Proof. unfold calls_of, add_run. by destruct (docx_run_text t). Qed.

Ltac oblivious_steps :=
  repeat first
    [ apply oblivious_ret
    | apply add_run_oblivious
    | apply translate_en2zh_oblivious
    | apply oblivious_bind; [|intros ?]
    | match goal with
      | |- oblivious (if ?b then _ else _) => destruct b
      | |- oblivious (match ?x with Some _ => _ | None => _ end) => destruct x
      end ].

Lemma annotate_oblivious (m : gmap nat str) (i : nat) (p : Paragraph) :
  oblivious (annotate m i p).
Proof. unfold annotate. oblivious_steps. Qed.

Lemma annotate_blank (m : gmap nat str) (i : nat) (p : Paragraph)
    (log : list Call) :
  blank (text p) → annotate m i p log = (Return p, log).
Proof. intros Hb%strip_blank. unfold annotate. by rewrite Hb. Qed.

Lemma stored_runs_app (a b : list (str * bool)) :
  stored_runs (a ++ b) =
    match stored_runs a with
    | Raise e => Raise e
    | Return ra =>
        match stored_runs b with
        | Return rb => Return (ra ++ rb)
        | Raise e => Raise e
        end
    end.
Proof.
  induction a as [|[t bold] a IH]; simpl.
  - by destruct (stored_runs b).
  - destruct (docx_run_text t) as [stored|e]; [|done]. rewrite IH.
    destruct (stored_runs a) as [ra|e]; [|done].
    by destruct (stored_runs b).
Qed.

Lemma stored_runs_returns (reqs : list (str * bool)) :
  (∃ rs, stored_runs reqs = Return rs) ↔ Forall storable (map fst reqs).
Proof.
  induction reqs as [|[t bold] reqs IH]; simpl.
  - split; [constructor | by eexists].
  - rewrite Forall_cons, <- IH. unfold storable.
    destruct (docx_run_text t) as [stored|e].
    + destruct (stored_runs reqs) as [rs|e']; split.
      * intros _. split; by eexists.
      * intros _. by eexists.
      * by intros (rs & ?).
      * by intros (_ & rs & ?).
    + split; [by intros (rs & ?) | by intros ((stored & ?) & _)].
Qed.

Lemma stored_runs_raises (reqs : list (str * bool)) (e : exn) :
  stored_runs reqs = Raise e →
  ∃ t, t ∈ map fst reqs ∧ docx_run_text t = Raise e.
Proof.
  induction reqs as [|[t bold] reqs IH]; simpl; [done|].
  destruct (docx_run_text t) as [stored|e0] eqn:Ht.
  - destruct (stored_runs reqs) as [rs|e1]; [done|]. intros [= ->].
    destruct (IH eq_refl) as (t' & Hin & Ht'). exists t'.
    split; [by right | done].
  - intros [= ->]. exists t. split; [by left | done].
Qed.

(** What the body of the loop makes of a paragraph: the runs the library
    makes of the requests come after the runs the paragraph has, and the
    exception of the library is not caught. *)
Lemma annotate_outcome (m : gmap nat str) (i : nat) (p : Paragraph) :
  result_of (annotate m i p) =
    match stored_runs (run_requests m i p) with
    | Return rs => Return (mkParagraph (runs p ++ rs))
    | Raise e => Raise e
    end.
Proof.
  unfold annotate, run_requests. cbv zeta.
  destruct (decide (strip (text p) = [])) as [Htxt|Htxt].
  { rewrite Htxt. simpl. destruct p. simpl. by rewrite app_nil_r. }
  rewrite (proj2 (truthy_true (strip (text p)))) by done.
  simpl negb. cbv iota.
  rewrite bind_result by (intros; oblivious_steps).
  rewrite translate_en2zh_translated.
  rewrite bind_result by (intros; oblivious_steps).
  rewrite stored_runs_app.
  set (zh := translated (strip (text p))).
  assert (Htail : ∀ q : Paragraph,
    result_of
      (match m !! i with
       | Some s =>
           if truthy s
           then add_run q (SUMMARY_LABEL ++ s) (λ r, set_yahei r true 11)
           else mret q
       | None => mret q
       end) =
    match stored_runs
            (match m !! i with
             | Some s =>
                 if decide (s = []) then [] else [(SUMMARY_LABEL ++ s, true)]
             | None => []
             end) with
    | Return rb => Return (mkParagraph (runs q ++ rb))
    | Raise e => Raise e
    end).
  { intros [rs]. destruct (m !! i) as [s|]; simpl.
    2:{ by rewrite app_nil_r. }
    destruct (decide (s = [])) as [->|Hs]; simpl.
    { by rewrite app_nil_r. }
    rewrite (proj2 (truthy_true s)) by done. rewrite add_run_result.
    by destruct (docx_run_text _). }
  destruct (decide (zh = [])) as [Hzh|Hzh].
  - rewrite Hzh. simpl truthy. cbv iota. rewrite ret_result, Htail. simpl.
    by destruct (stored_runs _).
  - rewrite (proj2 (truthy_true zh)) by done. rewrite add_run_result. simpl.
    destruct (docx_run_text _) as [stored|e]; [|done].
    rewrite Htail. simpl runs.
    destruct (stored_runs _) as [rb|e]; [|done].
    by rewrite <- app_assoc.
Qed.

Lemma annotate_only_appended (m : gmap nat str) (i : nat) (p p' : Paragraph) :
  result_of (annotate m i p) = Return p' → only_appended p p'.
Proof.
  rewrite annotate_outcome.
  destruct (stored_runs (run_requests m i p)) as [rs|e]; [|done].
  intros [= <-]. split.
  - by exists rs.
  - exists (concat (map run_text rs)). unfold text. simpl.
    by rewrite map_app, concat_app.
Qed.

(** The runs a paragraph gains, from the translation of its stripped text
    and from the summary table. *)
Lemma annotate_cases (m : gmap nat str) (i : nat) (p p' : Paragraph) :
  result_of (annotate m i p) = Return p' →
  ∃ tr sm,
    p' = mkParagraph (runs p ++ tr ++ sm) ∧
    (blank (text p) → tr = [] ∧ sm = []) ∧
    (¬ blank (text p) →
     (translated (strip (text p)) = [] → tr = []) ∧
     (translated (strip (text p)) ≠ [] →
      ∃ r, translation_run (translated (strip (text p))) r ∧ tr = [r]) ∧
     match m !! i with
     | Some s =>
         (s = [] → sm = []) ∧ (s ≠ [] → ∃ r, summary_run s r ∧ sm = [r])
     | None => sm = []
     end).
Proof.
  rewrite annotate_outcome. unfold run_requests.
  destruct (decide (strip (text p) = [])) as [Htxt|Htxt].
  { simpl. intros [= <-]. exists [], []. split_and!; [done|done|].
    intros Hb. by apply strip_nil_blank in Htxt. }
  rewrite stored_runs_app.
  destruct (stored_runs
              (if decide (translated (strip (text p)) = []) then []
               else [(NEWLINE ++ translated (strip (text p)), false)]))
    as [tr|e] eqn:Htr; [|done].
  destruct (stored_runs
              (match m !! i with
               | Some s =>
                   if decide (s = []) then [] else [(SUMMARY_LABEL ++ s, true)]
               | None => []
               end)) as [sm|e] eqn:Hsm; [|done].
  intros [= <-]. exists tr, sm. split_and!; [done| |].
  { intros Hb%strip_blank. done. }
  intros _. split_and!.
  - intros Hzh. rewrite decide_True in Htr by done. by injection Htr as <-.
  - intros Hzh. rewrite decide_False in Htr by done. cbn [stored_runs] in Htr.
    destruct (docx_run_text (NEWLINE ++ translated (strip (text p))))
      as [stored|e] eqn:Hst; [|done].
    injection Htr as <-. exists (yahei_run stored false).
    split; [by exists stored | done].
  - destruct (m !! i) as [s|]; [|by injection Hsm as <-]. split.
    + intros ->. simpl in Hsm. by injection Hsm as <-.
    + intros Hs. rewrite decide_False in Hsm by done. cbn [stored_runs] in Hsm.
      destruct (docx_run_text (SUMMARY_LABEL ++ s)) as [stored|e] eqn:Hst;
        [|done].
      injection Hsm as <-. exists (yahei_run stored true).
      split; [by exists stored | done].
Qed.

Lemma strip_not_blank (t : list N) : strip t ≠ [] → ¬ blank (strip t).
Proof.
  unfold strip, rstrip. intros Hne Hb.
  destruct (lstrip_head (rev (lstrip t))) as [Hnil | (c & s' & Heq & Hc)].
  - by rewrite Hnil in Hne.
  - rewrite Heq in Hb. apply (proj1 (blank_rev _)) in Hb.
    unfold blank in Hb. cbn [forallb] in Hb.
    apply andb_prop in Hb as [Hb _]. congruence.
Qed.

(** The body of the loop calls the translator once on a paragraph that is
    not blank, whatever the library does afterwards. *)
Lemma annotate_calls (m : gmap nat (list N)) (i : nat) (p : Paragraph) :
  calls_of (annotate m i p)
  = if decide (strip (text p) = []) then [] else [Translate (strip (text p))].
Proof.
  unfold annotate. cbv zeta. case_decide as Htxt.
  - by rewrite Htxt.
  - rewrite (proj2 (truthy_true (strip (text p)))) by done.
    simpl negb. cbv iota.
    rewrite bind_calls by (intros; oblivious_steps).
    rewrite translate_en2zh_translated.
    unfold calls_of at 1.
    rewrite translate_en2zh_call by (by apply strip_not_blank).
    simpl snd. rewrite <- (app_nil_r [Translate (strip (text p))]) at 2.
    f_equal.
    rewrite bind_calls by (intros; oblivious_steps).
    assert (Hfirst : calls_of
              (if truthy (translated (strip (text p)))
               then add_run p (NEWLINE ++ translated (strip (text p)))
                      (λ r, set_yahei r false 11)
               else mret p) = []).
    { destruct (truthy _); [apply add_run_calls | apply ret_calls]. }
    rewrite Hfirst. simpl.
    destruct (result_of _) as [q|e]; [|done].
    destruct (m !! i) as [s|]; [|apply ret_calls].
    destruct (truthy s); [apply add_run_calls | apply ret_calls].
Qed.

Lemma merge_loop_oblivious (m : gmap nat str) (ps : list (nat * Paragraph)) :
  oblivious (merge_loop m ps).
Proof.
  induction ps as [|[i p] ps IH]; simpl; [apply oblivious_ret|].
  apply oblivious_bind; [apply annotate_oblivious|]. intros p'.
  apply oblivious_bind; [apply IH|]. intros rest. apply oblivious_ret.
Qed.

Lemma merge_loop_cons (m : gmap nat str) (i : nat) (p : Paragraph)
    (ps : list (nat * Paragraph)) :
  result_of (merge_loop m ((i, p) :: ps)) =
    match result_of (annotate m i p) with
    | Raise e => Raise e
    | Return p' =>
        match result_of (merge_loop m ps) with
        | Return rest => Return (p' :: rest)
        | Raise e => Raise e
        end
    end.
Proof.
  cbn [merge_loop]. rewrite bind_result.
  2:{ intros q. apply oblivious_bind; [apply merge_loop_oblivious|].
      intros rest. apply oblivious_ret. }
  destruct (result_of (annotate m i p)) as [p'|e]; [|done].
  rewrite bind_result by (intros; apply oblivious_ret).
  by destruct (result_of (merge_loop m ps)).
Qed.

(** A run of the loop that returns gives, place by place, what [annotate]
    makes of the paragraph at that place. *)
Lemma merge_loop_returns (m : gmap nat str) (ps : list Paragraph) :
  ∀ i0 ps',
    result_of (merge_loop m (enumerate_from i0 ps)) = Return ps' →
    length ps' = length ps ∧
    ∀ j p, ps !! j = Some p →
           ∃ p', ps' !! j = Some p' ∧
                 result_of (annotate m (i0 + j) p) = Return p'.
Proof.
  induction ps as [|p ps IH]; intros i0 ps' Hres.
  - injection Hres as <-. split; [done|]. intros j p Hj.
    by rewrite lookup_nil in Hj.
  - cbn [enumerate_from] in Hres. rewrite merge_loop_cons in Hres.
    destruct (result_of (annotate m i0 p)) as [p'|e] eqn:Hp'; [|done].
    destruct (result_of (merge_loop m (enumerate_from (S i0) ps)))
      as [rest|e] eqn:Hrest; [|done].
    injection Hres as <-. destruct (IH (S i0) rest Hrest) as [Hlen Hpos].
    split; [simpl; by rewrite Hlen|].
    intros [|j] q Hq; simpl in Hq.
    + injection Hq as <-. exists p'. by rewrite Nat.add_0_r.
    + destruct (Hpos j q Hq) as (q' & Hq' & Hann). exists q'.
      split; [done|]. by replace (i0 + S j) with (S i0 + j) by lia.
Qed.

(** The loop returns exactly when the library can store every text it is
    asked to add, and what it raises is what the library raises on one of
    these texts. *)
Lemma merge_loop_outcome (m : gmap nat str) (ps : list Paragraph) :
  ∀ i0,
    let asked :=
      concat (map (λ ip, map fst (run_requests m ip.1 ip.2))
                  (enumerate_from i0 ps)) in
    ((∃ ps', result_of (merge_loop m (enumerate_from i0 ps)) = Return ps') ↔
     Forall storable asked) ∧
    (∀ e, result_of (merge_loop m (enumerate_from i0 ps)) = Raise e →
          ∃ t, t ∈ asked ∧ docx_run_text t = Raise e).
Proof.
  induction ps as [|p ps IH]; intros i0; cbn zeta.
  - simpl. split; [|done]. split; [constructor | by eexists].
  - cbn [enumerate_from map concat fst snd]. rewrite merge_loop_cons.
    rewrite annotate_outcome, Forall_app.
    destruct (IH (S i0)) as [Hret Hraise]. cbn zeta in Hret, Hraise.
    rewrite <- Hret, <- stored_runs_returns.
    destruct (stored_runs (run_requests m i0 p)) as [rs|e0] eqn:Hrs.
    + destruct (result_of (merge_loop m (enumerate_from (S i0) ps)))
        as [rest|e1].
      * split; [|done]. split; [|by eexists]. intros _. split; by eexists.
      * split.
        -- split; [by intros (ps' & ?) | by intros (_ & ps' & ?)].
        -- intros e [= <-]. destruct (Hraise e1 eq_refl) as (t & Hin & Ht).
           exists t. split; [|done]. apply elem_of_app. by right.
    + split.
      * split; [by intros (ps' & ?) | by intros ((rs & ?) & _)].
      * intros e [= <-]. destruct (stored_runs_raises _ _ Hrs) as (t & Hin & Ht).
        exists t. split; [|done]. apply elem_of_app. by left.
Qed.

(** The summary table of candidates with distinct indices has, at an
    index, the summary of the candidate with that index. *)
Lemma idx2summary_of_lookup (cands : list Candidate) (i : nat) (s : list N) :
  NoDup (map idx cands) →
  idx2summary_of cands !! i = Some s ↔
  ∃ c, c ∈ cands ∧ idx c = i ∧ summary_zh c = s.
Proof.
  unfold idx2summary_of.
  induction cands as [|c cands IH] using rev_ind; intros Hnd.
  - simpl. rewrite lookup_empty. split; [done|].
    by intros (c & ?%elem_of_nil & _).
  - rewrite map_app in Hnd. apply NoDup_app in Hnd as (Hnd & Hfresh & _).
    rewrite foldl_snoc. specialize (IH Hnd).
    destruct (decide (idx c = i)) as [<-|Hne].
    + rewrite lookup_insert_eq. split.
      * intros [= <-]. exists c. split; [|done].
        apply elem_of_app. right. by apply list_elem_of_singleton.
      * intros (c0 & [Hin|Hc0%list_elem_of_singleton]%elem_of_app & Hidx & <-);
          [|by subst].
        exfalso. apply (Hfresh (idx c0)).
        -- apply list_elem_of_fmap. eauto.
        -- simpl. rewrite Hidx. by apply list_elem_of_singleton.
    + rewrite lookup_insert_ne by done. rewrite IH. split.
      * intros (c0 & Hin & Hidx & Hs). exists c0. split; [|done].
        apply elem_of_app. by left.
      * intros (c0 & [Hin|Hc0%list_elem_of_singleton]%elem_of_app & Hidx & Hs);
          [eauto | by subst].
Qed.

Lemma StronglySorted_lt_NoDup (l : list nat) : StronglySorted lt l → NoDup l.
Proof.
  induction 1 as [|x l Hs IH Hall]; constructor; [|done].
  intros Hin. rewrite Forall_forall in Hall. specialize (Hall x Hin). lia.
Qed.

Lemma process_docx_run (doc : list Paragraph) (log : list Call) :
  process_docx doc log =
    match batch_summarize (collect_candidates doc) log with
    | (Return cands', log1) =>
        merge_loop (idx2summary_of cands') (enumerate doc) log1
    | (Raise e, log1) => (Raise e, log1)
    end.
Proof. reflexivity. Qed.

(** A run of [process_docx] that returns: the summariser answered every
    batch, the summary table is that of the candidates after the
    write-back, and the output holds, place by place, what [annotate] makes
    of the input. *)
Lemma process_docx_inv (doc doc' : list Paragraph) (log log' : list Call) :
  process_docx doc log = (Return doc', log') →
  ∃ cands' log1,
    batch_summarize (collect_candidates doc) log = (Return cands', log1) ∧
    length doc' = length doc ∧
    (∀ i p, doc !! i = Some p →
            ∃ p', doc' !! i = Some p' ∧
                  result_of (annotate (idx2summary_of cands') i p) = Return p') ∧
    (∀ i s, idx2summary_of cands' !! i = Some s ↔
            ∃ c, c ∈ cands' ∧ idx c = i ∧ summary_zh c = s).
Proof.
  intros Hrun. rewrite process_docx_run in Hrun.
  destruct (batch_summarize (collect_candidates doc) log)
    as [[cands'|e] log1] eqn:Hbatch; [|done].
  exists cands', log1. rewrite merge_loop_oblivious in Hrun.
  injection Hrun as Hres _.
  destruct (merge_loop_returns (idx2summary_of cands') doc 0 doc' Hres)
    as [Hlen Hpos].
  split_and!; [done|done| |].
  - intros i p Hi. apply (Hpos i p Hi).
  - intros i s. apply idx2summary_of_lookup.
    rewrite (batch_summarize_idx (collect_candidates doc) cands' log)
      by (by rewrite Hbatch).
    rewrite collect_candidates_omap.
    apply StronglySorted_lt_NoDup, collect_idx_sorted.
Qed.

(** C6. A run of the merge loop gives back a document only when it returns:
    the document library can raise on a run it is asked to add, and then
    nothing is given back. In every run that returns, the loop gives back
    as many paragraphs as it is given, in the same order, each holding the
    runs (and so the text) it had, followed by what was appended; and so
    does every run of [process_docx] that returns. The loop returns
    whenever the library can store the texts it is asked to add. *)
Theorem merge_keeps_paragraphs_and_only_appends
    (doc : list Paragraph) (log : list Call) :
  (∀ m doc' log',
      merge_loop m (enumerate doc) log = (Return doc', log') →
      length doc' = length doc ∧ Forall2 only_appended doc doc') ∧
  (∀ doc' log',
      process_docx doc log = (Return doc', log') →
      length doc' = length doc ∧ Forall2 only_appended doc doc') ∧
  (∀ m, Forall storable (run_texts m doc) →
        ∃ doc' log', merge_loop m (enumerate doc) log = (Return doc', log')).
Proof.
  split_and!.
  - intros m doc' log' Hrun. rewrite merge_loop_oblivious in Hrun.
    injection Hrun as Hres _.
    destruct (merge_loop_returns m doc 0 doc' Hres) as [Hlen Hpos].
    split; [done|]. apply Forall2_same_length_lookup_2; [done|].
    intros i p p' Hp Hp'. destruct (Hpos i p Hp) as (q & Hq & Hann).
    rewrite Hp' in Hq. injection Hq as <-.
    by apply (annotate_only_appended m (0 + i)).
  - intros doc' log' Hrun.
    destruct (process_docx_inv doc doc' log log' Hrun)
      as (cands' & log1 & _ & Hlen & Hpos & _).
    split; [done|]. apply Forall2_same_length_lookup_2; [done|].
    intros i p p' Hp Hp'. destruct (Hpos i p Hp) as (q & Hq & Hann).
    rewrite Hp' in Hq. injection Hq as <-.
    by apply (annotate_only_appended (idx2summary_of cands') i).
  - intros m Hall. destruct (merge_loop_outcome m doc 0) as [Hret _].
    cbn zeta in Hret. apply Hret in Hall as (doc' & Hres).
    exists doc', (log ++ calls_of (merge_loop m (enumerate doc))).
    rewrite merge_loop_oblivious. unfold enumerate. by rewrite Hres.
Qed.

(** C7, amended. A run of [process_docx] gives a document only when it
    returns: the summariser answered every batch and the document library
    stored every run. In such a run the paragraph at [i] of the output is
    the one of the input followed by the runs [tr] and [sm], in this order.
    A blank paragraph gains nothing. A paragraph that is not blank gains
    the translation run (the library's rendering of a line break and the
    translation, YaHei, not bold) exactly when the translation of its
    stripped text is not empty, and the summary run (the label and the
    summary, YaHei, bold) exactly when a candidate has the index [i] and a
    summary that is not empty. *)
Theorem process_docx_appends_translation_then_summary
    (doc doc' : list Paragraph) (log log' : list Call) :
  process_docx doc log = (Return doc', log') →
  ∃ cands' log1,
    batch_summarize (collect_candidates doc) log = (Return cands', log1) ∧
    ∀ i p, doc !! i = Some p →
      ∃ tr sm,
        doc' !! i = Some (mkParagraph (runs p ++ tr ++ sm)) ∧
        (blank (text p) → tr = [] ∧ sm = []) ∧
        (¬ blank (text p) →
         (translated (strip (text p)) ≠ [] →
          ∃ r, translation_run (translated (strip (text p))) r ∧ tr = [r]) ∧
         (translated (strip (text p)) = [] → tr = []) ∧
         (∀ c, c ∈ cands' → idx c = i → summary_zh c ≠ [] →
               ∃ r, summary_run (summary_zh c) r ∧ sm = [r]) ∧
         ((∀ c, c ∈ cands' → idx c = i → summary_zh c = []) → sm = [])).
Proof.
  intros Hrun.
  destruct (process_docx_inv doc doc' log log' Hrun)
    as (cands' & log1 & Hbatch & _ & Hpos & Htable).
  exists cands', log1. split; [done|]. intros i p Hp.
  destruct (Hpos i p Hp) as (p' & Hp' & Hann).
  destruct (annotate_cases _ _ _ _ Hann) as (tr & sm & -> & Hblank & Hfull).
  exists tr, sm. split_and!; [done|done|]. intros Hb.
  destruct (Hfull Hb) as (Hnone & Hsome & Hsm). split_and!; [done|done| |].
  - intros c Hc Hi Hne.
    rewrite (proj2 (Htable i (summary_zh c))) in Hsm by eauto.
    by apply Hsm.
  - intros Hall. destruct (idx2summary_of cands' !! i) as [s|] eqn:Hlook; [|done].
    apply Htable in Hlook as (c & Hc & Hi & <-).
    by apply Hsm, Hall.
Qed.

(** C10. On a blank text [translate_en2zh] returns the empty string and
    leaves the log as it is, so the text is not returned when it is not
    empty. A blank paragraph is given back by the loop body as it is, with
    no call, and so by [process_docx]. And when the summariser's answer for
    a candidate is blank, the paragraph of that candidate gains at most a
    translation run. *)
Theorem blank_text_gains_no_run :
  (∀ t log, blank t →
      translate_en2zh t log = (Return [], log) ∧
      (t ≠ [] → (translate_en2zh t log).1 ≠ Return t)) ∧
  (∀ m i p log, blank (text p) → annotate m i p log = (Return p, log)) ∧
  (∀ doc log doc' log',
      process_docx doc log = (Return doc', log') →
      (∀ i p, doc !! i = Some p → blank (text p) → doc' !! i = Some p) ∧
      (∀ j c outs out p,
          collect_candidates doc !! j = Some c →
          SUMMARIZER (batch_of (map truncated (collect_candidates doc))
                               (j / BATCH_SIZE)) = Return outs →
          outs !! (j mod BATCH_SIZE) = Some out →
          blank out →
          doc !! idx c = Some p →
          ∃ tr, doc' !! idx c = Some (mkParagraph (runs p ++ tr)) ∧
                (tr = [] ∨ ∃ zh r, translation_run zh r ∧ tr = [r]))).
Proof.
  split_and!.
  - intros t log Hb. rewrite translate_en2zh_blank by done.
    split; [done|]. simpl. intros Hne [= Heq]. by apply Hne.
  - intros m i p log Hb. by apply annotate_blank.
  - intros doc log doc' log' Hrun.
    destruct (process_docx_inv doc doc' log log' Hrun)
      as (cands' & log1 & Hbatch & Hlen & Hpos & Htable).
    split.
    + intros i p Hp Hb. destruct (Hpos i p Hp) as (p' & Hp' & Hann).
      unfold result_of in Hann. rewrite annotate_blank in Hann by done.
      by injection Hann as <-.
    + intros j c outs out p Hj Hsum Hout Hb Hp.
      destruct (batch_summarize_pointwise (collect_candidates doc) cands' log)
        as [_ Hwritten]; [by rewrite Hbatch|].
      destruct (Hwritten j c Hj) as (outs' & c' & Hsum' & Hc' & Hw).
      rewrite Hsum in Hsum'. injection Hsum' as <-. rewrite Hout in Hw.
      pose proof (written_blank c c' out Hb Hw) as Hempty.
      apply written_fields in Hw as [Hidx _].
      assert (Hlook : idx2summary_of cands' !! idx c = Some []).
      { apply Htable. exists c'. split_and!; [|done|done].
        apply list_elem_of_lookup. eauto. }
      destruct (Hpos (idx c) p Hp) as (p' & Hp' & Hann).
      destruct (annotate_cases _ _ _ _ Hann) as (tr & sm & -> & Hblank & Hfull).
      destruct (blank_dec (text p)) as [Hbp|Hbp].
      * destruct (Hblank Hbp) as [-> ->]. exists []. split; [done | by left].
      * destruct (Hfull Hbp) as (Hnone & Hsome & Hsm).
        rewrite Hlook in Hsm. destruct Hsm as [Hsm _].
        rewrite (Hsm eq_refl), app_nil_r in Hp'.
        exists tr. split; [done|].
        destruct (decide (translated (strip (text p)) = [])) as [Hzh|Hzh].
        -- left. by apply Hnone.
        -- right. destruct (Hsome Hzh) as (r & Hr & ->). eauto.
Qed.

End Merge.

(** ** The properties on the small instance *)

Section Instance.


Lemma Candidate_init_within_budget_witness :
  (token_count (ext := Toy.external) (lit "a short text") ≤ 1024)%Z ∧
  truncated (Candidate_init (ext := Toy.external) 3 (lit "a short text"))
    = lit "a short text".
Proof.
  split.
  - vm_compute. discriminate.
  - apply (Candidate_init_within_budget_untouched (ext := Toy.external)).
    vm_compute. discriminate.
Defined.

(** C7 as the specification words it fails: the translator answers the
    empty string on the paragraph, which is not blank and gains no run. *)
Lemma translation_always_appended_counterexample :
  ¬ translation_always_appended (ext := Toy.external) [Toy.para "~what"].
Proof.
  intros Hclaim.
  destruct (Hclaim [Toy.para "~what"] [Translate (lit "~what")]
              ltac:(vm_compute; reflexivity) 0 (Toy.para "~what") eq_refl)
    as (zh & r & sm & _ & Hrun).
  - intros Hb. vm_compute in Hb. discriminate.
  - vm_compute in Hrun. discriminate.
Qed.

Lemma translate_en2zh_failure_witness :
  translate_en2zh (ext := Toy.external) (lit "!hi") []
  = (Return (lit "!hi"), [Translate (lit "!hi")]).
Proof.
  apply (proj2 (translate_en2zh_failure_is_passthrough
                  (ext := Toy.external) (lit "!hi") [])
               (Exception (lit "request failed"))).
  - reflexivity.
  - intros Hb. vm_compute in Hb. discriminate.
Defined.

Lemma collect_candidates_boundary_witness :
  (∃ c, c ∈ collect_candidates (ext := Toy.external) Toy.boundary_doc ∧
        idx c = 0) ∧
  (¬ ∃ c, c ∈ collect_candidates (ext := Toy.external) Toy.boundary_doc ∧
          idx c = 1) ∧
  (¬ ∃ c, c ∈ collect_candidates (ext := Toy.external) Toy.boundary_doc ∧
          idx c = 2).
Proof.
  split_and!.
  - destruct (proj2 (collect_candidates_takes_more_than_40_words
                       (ext := Toy.external) Toy.boundary_doc 0)
                    (Toy.para_mixed 41) eq_refl) as (H41 & _ & _).
    eexists. split; [apply H41|reflexivity].
    + vm_compute. reflexivity.
    + intros Hb. vm_compute in Hb. discriminate.
  - destruct (proj2 (collect_candidates_takes_more_than_40_words
                       (ext := Toy.external) Toy.boundary_doc 1)
                    (Toy.para_mixed 40) eq_refl) as (_ & H40 & _).
    apply H40. vm_compute. reflexivity.
  - destruct (proj2 (collect_candidates_takes_more_than_40_words
                       (ext := Toy.external) Toy.boundary_doc 2)
                    (Toy.para "   ") eq_refl) as (_ & _ & Hblank).
    apply Hblank. vm_compute. reflexivity.
Defined.

Lemma blank_text_witness :
  translate_en2zh (ext := Toy.external) (lit "   ") [] = (Return [], []).
Proof.
  apply (proj1 (blank_text_gains_no_run (ext := Toy.external))).
  vm_compute. reflexivity.
Defined.

(** The candidates of the sample document, the calls of a batch run over
    five candidates, and a whole run of the script. *)
Example collect_candidates_sample :
  map idx (collect_candidates (ext := Toy.external) Toy.sample_doc) = [1].
Proof. vm_compute. reflexivity. Qed.

Example batch_summarize_five :
  chunks_sent (calls_of (batch_summarize (ext := Toy.external)
                           Toy.five_candidates))
  = [[lit "t0"; lit "t1"; lit "t2"; lit "t3"]; [lit "t4"]] ∧
  match result_of (batch_summarize (ext := Toy.external)
                     Toy.five_candidates) with
  | Return cands' =>
      map summary_zh cands'
      = [lit "zh:t0"; lit "zh:t1"; lit "zh:t2"; lit "zh:t3"; lit "zh:t4"]
  | Raise _ => False
  end.
Proof. split; vm_compute; reflexivity. Qed.

Example process_docx_sample :
  process_docx (ext := Toy.external) Toy.sample_doc []
  = (Return Toy.sample_out,
     [ Summarize [Toy.words 41 (lit "ab")];
       Translate (lit "ab ab");
       Translate (lit "hello");
       Translate (Toy.words 41 (lit "ab"));
       Translate (lit "~what") ]).
Proof. vm_compute. reflexivity. Qed.

(** A run in which the library refuses the translation of the second
    paragraph: the script raises, and the third paragraph is not
    translated. *)
Example process_docx_refused :
  process_docx (ext := Toy.external) Toy.refused_doc []
  = (Raise (Exception (lit "All strings must be XML compatible")),
     [Translate (lit "hello"); Translate (lit "^oops")]).
Proof. vm_compute. reflexivity. Qed.

Lemma merge_keeps_paragraphs_and_only_appends_witness :
  length Toy.sample_out = length Toy.sample_doc ∧
  Forall2 only_appended Toy.sample_doc Toy.sample_out.
Proof.
  exact (proj1 (proj2 (merge_keeps_paragraphs_and_only_appends
                         (ext := Toy.external) Toy.sample_doc []))
               _ _ process_docx_sample).
Defined.

Lemma process_docx_appends_translation_then_summary_witness :
  ∃ tr sm,
    Toy.sample_out !! 1
    = Some (mkParagraph (runs (Toy.para_words 41 "ab") ++ tr ++ sm)) ∧
    (∃ r, translation_run (ext := Toy.external)
            (translated (ext := Toy.external)
               (strip (text (Toy.para_words 41 "ab")))) r ∧
          tr = [r]).
Proof.
  destruct (process_docx_appends_translation_then_summary
              (ext := Toy.external) _ _ _ _ process_docx_sample)
    as (cands' & log1 & _ & Hdoc).
  destruct (Hdoc 1 (Toy.para_words 41 "ab") eq_refl)
    as (tr & sm & Hp & _ & Hfull).
  exists tr, sm. split; [exact Hp|].
  assert (Hnb : ¬ blank (text (Toy.para_words 41 "ab"))).
  { intros Hb. vm_compute in Hb. discriminate. }
  destruct (Hfull Hnb) as (Hsome & _). apply Hsome.
  intros Hzh. vm_compute in Hzh. discriminate.
Defined.

End Instance.


(** ** The name of the saved file *)

Section FileNames.

Implicit Types (c : N) (s t chars : list N).

Lemma lstrip_chars_split chars s :
  ∃ pre, s = pre ++ lstrip_chars chars s ∧ Forall (λ c, c ∈ chars) pre.
Proof.
  induction s as [|c s (pre & Hs & Hpre)]; simpl.
  - by exists [].
  - case_bool_decide as Hc.
    + exists (c :: pre). split; [by rewrite Hs at 1 | by constructor].
    + by exists [].
Qed.

Lemma lstrip_chars_head chars s c :
  head (lstrip_chars chars s) = Some c → c ∉ chars.
Proof.
  induction s as [|c' s IH]; simpl; [done|].
  case_bool_decide as Hc; [done|]. by intros [= <-].
Qed.

Lemma lstrip_chars_id chars s :
  (∀ c, head s = Some c → c ∉ chars) → lstrip_chars chars s = s.
Proof.
  destruct s as [|c s]; simpl; [done|]. intros Hc.
  by rewrite bool_decide_eq_false_2 by (by apply Hc).
Qed.

Lemma lstrip_chars_all chars s :
  Forall (λ c, c ∈ chars) s → lstrip_chars chars s = [].
Proof.
  induction 1 as [|c s Hc _ IH]; simpl; [done|].
  by rewrite bool_decide_eq_true_2.
Qed.

Lemma lstrip_chars_app chars s t :
  (∃ c, head t = Some c ∧ c ∉ chars) →
  lstrip_chars chars (s ++ t) = lstrip_chars chars s ++ t.
Proof.
  intros (c & Hhead & Hc). induction s as [|c' s IH]; simpl.
  - apply lstrip_chars_id. intros c0. rewrite Hhead. by intros [= <-].
  - by case_bool_decide.
Qed.

Lemma head_rev s : head (rev s) = last s.
Proof.
  induction s as [|c s IH] using rev_ind; [done|].
  by rewrite rev_unit, last_snoc.
Qed.

Lemma rstrip_chars_split chars s :
  ∃ post, s = rstrip_chars chars s ++ post ∧ Forall (λ c, c ∈ chars) post.
Proof.
  unfold rstrip_chars.
  destruct (lstrip_chars_split chars (rev s)) as (pre & Hs & Hpre).
  exists (rev pre). split.
  - rewrite <- rev_app_distr, <- Hs. by rewrite rev_involutive.
  - apply Forall_forall. intros c Hc%list_elem_of_In%in_rev%list_elem_of_In.
    by apply (proj1 (Forall_forall _ _) Hpre).
Qed.

Lemma rstrip_chars_last chars s c :
  last (rstrip_chars chars s) = Some c → c ∉ chars.
Proof.
  unfold rstrip_chars. rewrite <- head_rev, rev_involutive.
  apply lstrip_chars_head.
Qed.

Lemma rstrip_chars_id chars s :
  (∀ c, last s = Some c → c ∉ chars) → rstrip_chars chars s = s.
Proof.
  intros Hc. unfold rstrip_chars. rewrite lstrip_chars_id.
  - apply rev_involutive.
  - intros c. rewrite head_rev. apply Hc.
Qed.

(** What [strip_chars] gives: the text without a run of characters of
    [chars] at either end, and with no such character left at an end. *)
Lemma strip_chars_split chars s :
  ∃ pre post,
    s = pre ++ strip_chars chars s ++ post ∧
    Forall (λ c, c ∈ chars) pre ∧ Forall (λ c, c ∈ chars) post ∧
    (∀ c, head (strip_chars chars s) = Some c → c ∉ chars) ∧
    (∀ c, last (strip_chars chars s) = Some c → c ∉ chars).
Proof.
  unfold strip_chars.
  destruct (lstrip_chars_split chars s) as (pre & Hs & Hpre).
  destruct (rstrip_chars_split chars (lstrip_chars chars s))
    as (post & Hl & Hpost).
  exists pre, post. split_and!; try done.
  - by rewrite <- Hl.
  - intros c Hc. apply (lstrip_chars_head chars s c).
    rewrite Hl. by destruct (rstrip_chars chars (lstrip_chars chars s)).
  - apply rstrip_chars_last.
Qed.

Lemma strip_chars_id chars s :
  (∀ c, head s = Some c → c ∉ chars) →
  (∀ c, last s = Some c → c ∉ chars) →
  strip_chars chars s = s.
Proof.
  intros Hh Hl. unfold strip_chars.
  rewrite lstrip_chars_id by done. by apply rstrip_chars_id.
Qed.

Lemma UNDERSCORE_safe : safe_char UNDERSCORE.
Proof.
  split; [|done].
  apply (bool_decide_unpack (UNDERSCORE ∉ RESERVED)). vm_compute. exact I.
Qed.

Lemma sub_reserved_safe t : Forall (λ c, c ∉ RESERVED) (sub_reserved t).
Proof.
  unfold sub_reserved. apply Forall_fmap, Forall_true. intros c. simpl.
  case_bool_decide; [apply UNDERSCORE_safe | done].
Qed.

Lemma sub_reserved_id t : Forall (λ c, c ∉ RESERVED) t → sub_reserved t = t.
Proof.
  induction 1 as [|c t Hc _ IH]; [done|]. unfold sub_reserved in *. simpl.
  by rewrite bool_decide_eq_false_2, IH.
Qed.

Lemma sub_whitespace_Forall (P : N → Prop) t :
  P UNDERSCORE → Forall P t → ∀ in_run, Forall P (sub_whitespace in_run t).
Proof.
  intros Hu. induction 1 as [|c t Hc _ IH]; intros in_run; simpl; [done|].
  destruct (isspace c), in_run; auto.
Qed.

Lemma sub_whitespace_no_space t :
  ∀ in_run, Forall (λ c, isspace c = false) (sub_whitespace in_run t).
Proof.
  induction t as [|c t IH]; intros in_run; simpl; [done|].
  destruct (isspace c) eqn:Hc, in_run; auto.
Qed.

Lemma sub_whitespace_id t :
  Forall (λ c, isspace c = false) t →
  ∀ in_run, sub_whitespace in_run t = t.
Proof.
  induction 1 as [|c t Hc _ IH]; intros in_run; simpl; [done|].
  by rewrite Hc, IH.
Qed.

Lemma sub_whitespace_app s t :
  Forall (λ c, isspace c = false) t →
  ∀ in_run, sub_whitespace in_run (s ++ t) = sub_whitespace in_run s ++ t.
Proof.
  intros Ht. induction s as [|c s IH]; intros in_run; simpl.
  - by apply sub_whitespace_id.
  - destruct (isspace c), in_run; by rewrite IH.
Qed.

Lemma sanitize_filename_split t :
  ∃ pre post,
    sub_whitespace false (sub_reserved t)
    = pre ++ sanitize_filename t ++ post ∧
    Forall (λ c, c = UNDERSCORE) pre ∧ Forall (λ c, c = UNDERSCORE) post.
Proof.
  unfold sanitize_filename.
  destruct (strip_chars_split [UNDERSCORE]
              (sub_whitespace false (sub_reserved t)))
    as (pre & post & Hs & Hpre & Hpost & _).
  exists pre, post. split_and!; [done| |];
    (eapply Forall_impl; [eassumption|]);
    intros c Hc; by apply list_elem_of_singleton.
Qed.

Lemma sanitize_filename_inner_safe t :
  Forall safe_char (sub_whitespace false (sub_reserved t)).
Proof.
  apply Forall_and. split.
  - apply sub_whitespace_Forall; [apply UNDERSCORE_safe | apply sub_reserved_safe].
  - apply sub_whitespace_no_space.
Qed.

Lemma sanitize_filename_safe_chars t : Forall safe_char (sanitize_filename t).
Proof.
  destruct (sanitize_filename_split t) as (pre & post & Hs & _ & _).
  pose proof (sanitize_filename_inner_safe t) as Hsafe.
  rewrite Hs in Hsafe.
  by apply Forall_app in Hsafe as [_ [Hmid _]%Forall_app].
Qed.

Lemma sanitize_filename_ends t :
  head (sanitize_filename t) ≠ Some UNDERSCORE ∧
  last (sanitize_filename t) ≠ Some UNDERSCORE.
Proof.
  unfold sanitize_filename.
  destruct (strip_chars_split [UNDERSCORE]
              (sub_whitespace false (sub_reserved t)))
    as (_ & _ & _ & _ & _ & Hhead & Hlast).
  split; intros Hc;
    [apply (Hhead _ Hc) | apply (Hlast _ Hc)]; by apply list_elem_of_singleton.
Qed.

(** X1. The result of [sanitize_filename] holds no character of the
    reserved class (so no slash and no backslash) and no white space, and
    it neither starts nor ends with an underscore. *)
Theorem sanitize_filename_is_safe (t : list N) :
  Forall safe_char (sanitize_filename t) ∧
  (47%N ∉ sanitize_filename t) ∧ (92%N ∉ sanitize_filename t) ∧
  head (sanitize_filename t) ≠ Some UNDERSCORE ∧
  last (sanitize_filename t) ≠ Some UNDERSCORE.
Proof.
  pose proof (sanitize_filename_safe_chars t) as Hsafe.
  destruct (sanitize_filename_ends t) as [Hhead Hlast].
  split_and!; try done.
  - intros Hin. rewrite Forall_forall in Hsafe.
    destruct (Hsafe _ Hin) as [Hres _]. apply Hres.
    apply (bool_decide_unpack (47%N ∈ RESERVED)). vm_compute. exact I.
  - intros Hin. rewrite Forall_forall in Hsafe.
    destruct (Hsafe _ Hin) as [Hres _]. apply Hres.
    apply (bool_decide_unpack (92%N ∈ RESERVED)). vm_compute. exact I.
Qed.

Lemma sanitize_filename_fixed t :
  Forall safe_char t →
  head t ≠ Some UNDERSCORE → last t ≠ Some UNDERSCORE →
  sanitize_filename t = t.
Proof.
  intros [Hres Hsp]%Forall_and Hhead Hlast. unfold sanitize_filename.
  cbv zeta. rewrite sub_reserved_id, sub_whitespace_id by done.
  apply strip_chars_id; intros c Hc ->%list_elem_of_singleton; congruence.
Qed.

(** X2. [sanitize_filename] is idempotent: a sanitized name is left as it
    is. *)
Theorem sanitize_filename_idempotent (t : list N) :
  sanitize_filename (sanitize_filename t) = sanitize_filename t.
Proof.
  destruct (sanitize_filename_ends t) as [Hhead Hlast].
  apply sanitize_filename_fixed; [apply sanitize_filename_safe_chars|done|done].
Qed.

Lemma filter_plain_sub_reserved t :
  filter plain_char (sub_reserved t) = filter plain_char t.
Proof.
  unfold sub_reserved. induction t as [|c t IH]; [done|]. simpl.
  case_bool_decide as Hc.
  - rewrite !filter_cons_False; [done| |].
    + by intros [[? _] _].
    + by intros [_ ?].
  - rewrite !filter_cons, IH. done.
Qed.

Lemma filter_plain_sub_whitespace t :
  ∀ in_run, filter plain_char (sub_whitespace in_run t) = filter plain_char t.
Proof.
  induction t as [|c t IH]; intros in_run; [done|]. simpl.
  destruct (isspace c) eqn:Hc.
  - rewrite (filter_cons_False _ c) by (intros [[_ ?] _]; congruence).
    destruct in_run; [apply IH|].
    rewrite filter_cons_False by (by intros [_ ?]). apply IH.
  - by rewrite !filter_cons, IH.
Qed.

Lemma filter_plain_underscores s :
  Forall (λ c, c = UNDERSCORE) s → filter plain_char s = [].
Proof.
  induction 1 as [|c s -> _ IH]; [done|].
  by rewrite filter_cons_False by (by intros [_ ?]).
Qed.

Lemma sub_whitespace_length t :
  ∀ in_run, length (sub_whitespace in_run t) ≤ length t.
Proof.
  induction t as [|c t IH]; intros in_run; simpl; [done|].
  pose proof (IH true). pose proof (IH false).
  destruct (isspace c), in_run; simpl; lia.
Qed.

(** X3. [sanitize_filename] keeps every plain character (one that is not
    reserved, not white space and not the underscore), in order, and adds
    nothing but underscores; the result is never longer than the text, and
    it is empty exactly when the text has no plain character. *)
Theorem sanitize_filename_keeps_plain_characters (t : list N) :
  filter plain_char (sanitize_filename t) = filter plain_char t ∧
  Forall (λ c, c ∈ t ∨ c = UNDERSCORE) (sanitize_filename t) ∧
  length (sanitize_filename t) ≤ length t ∧
  (sanitize_filename t = [] ↔ Forall (λ c, ¬ plain_char c) t).
Proof.
  destruct (sanitize_filename_split t) as (pre & post & Hs & Hpre & Hpost).
  assert (Hfilter : filter plain_char (sanitize_filename t)
                    = filter plain_char t).
  { rewrite <- (filter_plain_sub_reserved t).
    rewrite <- (filter_plain_sub_whitespace (sub_reserved t) false).
    rewrite Hs, !filter_app.
    by rewrite (filter_plain_underscores pre), (filter_plain_underscores post),
      app_nil_r. }
  split_and!.
  - done.
  - apply Forall_forall. intros c Hc.
    destruct (decide (plain_char c)) as [Hp|Hp].
    + left. assert (c ∈ filter plain_char (sanitize_filename t)) as Hin
        by (by apply list_elem_of_filter).
      rewrite Hfilter in Hin. by apply list_elem_of_filter in Hin as [_ ?].
    + right. pose proof (sanitize_filename_safe_chars t) as Hsafe.
      rewrite Forall_forall in Hsafe. specialize (Hsafe c Hc).
      destruct (decide (c = UNDERSCORE)) as [|Hne]; [done|].
      by destruct Hp.
  - pose proof (sub_whitespace_length (sub_reserved t) false) as Hlen.
    rewrite Hs, !length_app in Hlen.
    unfold sub_reserved in Hlen. rewrite length_map in Hlen. lia.
  - split.
    + intros Hnil. rewrite Hnil in Hfilter.
      apply Forall_forall. intros c Hc Hp.
      assert (c ∈ filter plain_char t) as Hin by (by apply list_elem_of_filter).
      rewrite <- Hfilter in Hin. by apply elem_of_nil in Hin.
    + intros Hnone. destruct (sanitize_filename t) as [|c s] eqn:Hsan; [done|].
      exfalso.
      pose proof (sanitize_filename_safe_chars t) as Hsafe.
      rewrite Hsan in Hsafe. apply Forall_cons in Hsafe as [Hc _].
      assert (Hne : c ≠ UNDERSCORE).
      { intros ->. destruct (sanitize_filename_ends t) as [Hh _].
        rewrite Hsan in Hh. by apply Hh. }
      assert (c ∈ filter plain_char t) as Hin.
      { rewrite <- Hfilter. apply list_elem_of_filter.
        split; [done|]. by left. }
      apply list_elem_of_filter in Hin as [Hp Hin].
      rewrite Forall_forall in Hnone. by apply (Hnone c Hin).
Qed.

Lemma sanitize_filename_app_plain t s :
  s ≠ [] → Forall plain_char s →
  sanitize_filename (t ++ s)
  = lstrip_chars [UNDERSCORE] (sub_whitespace false (sub_reserved t)) ++ s.
Proof.
  intros Hne Hplain.
  assert (Hres : Forall (λ c, c ∉ RESERVED) s)
    by (eapply Forall_impl; [exact Hplain | by intros c [[? _] _]]).
  assert (Hsp : Forall (λ c, isspace c = false) s)
    by (eapply Forall_impl; [exact Hplain | by intros c [[_ ?] _]]).
  assert (Hus : ∀ c, c ∈ s → c ∉ [UNDERSCORE]).
  { intros c Hc ->%list_elem_of_singleton.
    rewrite Forall_forall in Hplain. by destruct (Hplain _ Hc) as [_ ?]. }
  unfold sanitize_filename, strip_chars. cbv zeta.
  unfold sub_reserved at 1. rewrite map_app.
  fold (sub_reserved t). fold (sub_reserved s).
  rewrite (sub_reserved_id s), sub_whitespace_app by done.
  rewrite lstrip_chars_app.
  - apply rstrip_chars_id. intros c. rewrite last_app.
    destruct (last s) as [c'|] eqn:Hlast.
    + intros [= <-]. apply Hus. by apply last_Some_elem_of.
    + by apply last_None in Hlast.
  - destruct s as [|c s']; [done|]. exists c. split; [done|].
    apply Hus. by left.
Qed.

(** X4. An ending of plain characters is kept as the ending of the name:
    for instance the extension of a file name. *)
Theorem sanitize_filename_keeps_plain_suffix (t s : list N) :
  s ≠ [] → Forall plain_char s →
  s `suffix_of` sanitize_filename (t ++ s).
Proof.
  intros Hne Hplain. rewrite sanitize_filename_app_plain by done.
  by eexists.
Qed.

Lemma docx_plain : Forall plain_char (lit ".docx").
Proof.
  apply (bool_decide_unpack (Forall plain_char (lit ".docx"))).
  vm_compute. exact I.
Qed.

(** X5. The file name [main] builds from the date and the title of an
    article ends with [.docx] and has something before it; it holds no
    slash, no backslash, no other reserved character and no white space,
    and it does not start with an underscore. *)
Theorem article_filename_is_a_docx_name (date title : list N) :
  lit ".docx" `suffix_of` article_filename date title ∧
  length (lit ".docx") < length (article_filename date title) ∧
  Forall safe_char (article_filename date title) ∧
  (47%N ∉ article_filename date title) ∧
  (92%N ∉ article_filename date title) ∧
  head (article_filename date title) ≠ Some UNDERSCORE.
Proof.
  unfold article_filename.
  set (stem := (if truthy date then date else lit "undated") ++ lit "-" ++ title).
  replace ((if truthy date then date else lit "undated")
             ++ lit "-" ++ title ++ lit ".docx")
    with (stem ++ lit ".docx") by (unfold stem; by rewrite <- !app_assoc).
  pose proof (sanitize_filename_safe_chars (stem ++ lit ".docx")) as Hsafe.
  destruct (sanitize_filename_ends (stem ++ lit ".docx")) as [Hhead _].
  assert (Hno : ∀ c, c ∈ RESERVED → c ∉ sanitize_filename (stem ++ lit ".docx")).
  { intros c Hc Hin. rewrite Forall_forall in Hsafe.
    by destruct (Hsafe _ Hin) as [Hres _]. }
  split_and!; try done.
  - rewrite sanitize_filename_app_plain by (done || apply docx_plain).
    by eexists.
  - assert (Hfilter : filter plain_char (sanitize_filename (stem ++ lit ".docx"))
                      = filter plain_char (stem ++ lit ".docx")).
    { destruct (sanitize_filename_split (stem ++ lit ".docx"))
        as (pre & post & Hs & Hpre & Hpost).
      rewrite <- (filter_plain_sub_reserved (stem ++ lit ".docx")).
      rewrite <- (filter_plain_sub_whitespace (sub_reserved _) false).
      rewrite Hs, !filter_app.
      by rewrite (filter_plain_underscores pre),
        (filter_plain_underscores post), app_nil_r. }
    pose proof (length_filter plain_char
                  (sanitize_filename (stem ++ lit ".docx"))) as Hlen.
    rewrite Hfilter in Hlen. clear Hfilter Hsafe Hhead Hno. subst stem.
    rewrite <- !app_assoc, !filter_app, !length_app in Hlen.
    rewrite <- !app_assoc.
    change (length (filter plain_char (lit "-"))) with 1 in Hlen.
    change (length (filter plain_char (lit ".docx"))) with 5 in Hlen.
    change (length (lit ".docx")) with 5. lia.
  - apply Hno. apply (bool_decide_unpack (47%N ∈ RESERVED)). vm_compute. exact I.
  - apply Hno. apply (bool_decide_unpack (92%N ∈ RESERVED)). vm_compute. exact I.
Qed.

End FileNames.


(** ** More on the annotation pipeline *)

Section Failures.

Context {ext : External}.

(** The loop over the batches [b0 .. b0 + m - 1] returns when the
    summariser answers each of them, and raises what the summariser raises
    on the first batch it does not answer, after the calls up to that
    batch; it raises nothing else. *)
Lemma batch_loop_outcome (texts : list str) (m : nat) :
  ∀ (b0 : nat) (cur : list Candidate),
    let run :=
      batch_loop (map (λ b, b * BATCH_SIZE) (seq b0 m)) texts cur in
    ((∀ b, b0 ≤ b < b0 + m →
           ∃ outs, SUMMARIZER (batch_of texts b) = Return outs) →
     ∃ fin, result_of run = Return fin) ∧
    (∀ b e, b0 ≤ b < b0 + m →
            SUMMARIZER (batch_of texts b) = Raise e →
            (∀ b', b0 ≤ b' < b →
                   ∃ outs, SUMMARIZER (batch_of texts b') = Return outs) →
            result_of run = Raise e ∧
            chunks_sent (calls_of run)
              = map (batch_of texts) (seq b0 (S (b - b0)))) ∧
    (∀ e, result_of run = Raise e →
          ∃ b, b0 ≤ b < b0 + m ∧ SUMMARIZER (batch_of texts b) = Raise e).
Proof.
  induction m as [|m IH]; intros b0 cur; cbn zeta.
  - split_and!; [by eexists | intros b e Hb; lia | done].
  - cbn [seq map].
    pose proof (batch_loop_step texts b0
                  (map (λ b, b * BATCH_SIZE) (seq (S b0) m)) cur) as Hstep.
    cbn zeta in Hstep.
    destruct (SUMMARIZER (batch_of texts b0)) as [outs|e0] eqn:Hsum.
    + destruct Hstep as (w & Hw & Hres & Hcalls).
      set (next := take (b0 * BATCH_SIZE) cur ++ w
                     ++ drop (b0 * BATCH_SIZE + BATCH_SIZE) cur) in *.
      destruct (IH (S b0) next) as (Hret & Hraise & Hinv).
      cbn zeta in Hret, Hraise, Hinv.
      rewrite Hres, Hcalls. split_and!.
      * intros Hall. apply Hret. intros b Hb. apply Hall. lia.
      * intros b e Hb He Hbefore.
        destruct (decide (b = b0)) as [->|Hne]; [congruence|].
        destruct (Hraise b e ltac:(lia) He) as [Hr Hc].
        { intros b' Hb'. apply Hbefore. lia. }
        split; [done|]. rewrite Hc.
        by replace (b - b0) with (S (b - S b0)) by lia.
      * intros e He. destruct (Hinv e He) as (b & Hb & Hbe).
        exists b. split; [lia | done].
    + destruct Hstep as [Hres Hcalls]. rewrite Hres, Hcalls. split_and!.
      * intros Hall. destruct (Hall b0 ltac:(lia)) as (outs & Houts).
        congruence.
      * intros b e Hb He Hbefore.
        destruct (decide (b = b0)) as [->|Hne].
        -- rewrite Hsum in He. injection He as <-.
           by rewrite Nat.sub_diag.
        -- destruct (Hbefore b0 ltac:(lia)) as (outs & Houts). congruence.
      * intros e [= <-]. exists b0. split; [lia | done].
Qed.

Lemma batch_summarize_outcome (cands : list Candidate) :
  let texts := map truncated cands in
  (all_batches_answered texts →
   ∃ fin, result_of (batch_summarize cands) = Return fin) ∧
  (∀ b e, b < n_batches (length texts) →
          SUMMARIZER (batch_of texts b) = Raise e →
          (∀ b', b' < b → ∃ outs, SUMMARIZER (batch_of texts b') = Return outs) →
          result_of (batch_summarize cands) = Raise e ∧
          chunks_sent (calls_of (batch_summarize cands))
            = take (S b) (batches texts)) ∧
  (∀ e, result_of (batch_summarize cands) = Raise e →
        ∃ b, b < n_batches (length texts) ∧
             SUMMARIZER (batch_of texts b) = Raise e).
Proof.
  cbn zeta. destruct cands as [|c cands'].
  { split_and!; [by eexists| |done]. intros b e Hb. unfold n_batches in Hb.
    simpl in Hb. lia. }
  rewrite batch_summarize_cons.
  destruct (batch_loop_outcome (map truncated (c :: cands'))
              (n_batches (length (map truncated (c :: cands')))) 0
              (c :: cands')) as (Hret & Hraise & Hinv).
  cbn zeta in Hret, Hraise, Hinv. split_and!.
  - intros Hall. apply Hret. intros b Hb. apply Hall. lia.
  - intros b e Hb He Hbefore.
    destruct (Hraise b e ltac:(lia) He) as [Hr Hc].
    { intros b' Hb'. apply Hbefore. lia. }
    split; [done|]. rewrite Hc, Nat.sub_0_r. unfold batches.
    rewrite <- fmap_take, take_seq. f_equal. f_equal. lia.
  - intros e He. destruct (Hinv e He) as (b & Hb & Hbe).
    exists b. split; [lia | done].
Qed.

Lemma batch_summarize_oblivious (cands : list Candidate) :
  oblivious (batch_summarize cands).
Proof.
  unfold batch_summarize. destruct (negb (truthy cands)).
  - apply oblivious_ret.
  - apply batch_loop_oblivious.
Qed.

Lemma batch_summarize_answered (cands : list Candidate) :
  (∃ cands', result_of (batch_summarize cands) = Return cands') ↔
  all_batches_answered (map truncated cands).
Proof.
  split.
  - intros (cands' & Hres).
    destruct (batch_summarize_returns cands cands' [] Hres) as [_ Hwritten].
    intros b Hb. rewrite length_map in Hb.
    destruct (Hwritten b Hb) as (outs & Houts & _). eauto.
  - apply batch_summarize_outcome.
Qed.

Lemma stripped_texts_cons (p : Paragraph) (ps : list Paragraph) :
  stripped_texts (p :: ps)
  = (if decide (strip (text p) = []) then [] else [strip (text p)])
      ++ stripped_texts ps.
Proof.
  unfold stripped_texts. cbn [map]. rewrite filter_cons.
  by destruct (decide (strip (text p) ≠ [])), (decide (strip (text p) = [])).
Qed.

(** The calls of the merge loop: one translation for each paragraph that
    is not blank, of its stripped text, in the order of the document, up
    to the paragraph at which the loop raises, if it does. *)
Lemma merge_loop_calls (m : gmap nat (list N)) (ps : list Paragraph) :
  ∀ i0,
    calls_of (merge_loop m (enumerate_from i0 ps))
      `prefix_of` map Translate (stripped_texts ps) ∧
    (∀ ps', result_of (merge_loop m (enumerate_from i0 ps)) = Return ps' →
            calls_of (merge_loop m (enumerate_from i0 ps))
            = map Translate (stripped_texts ps)).
Proof.
  induction ps as [|p ps IH]; intros i0; [done|].
  destruct (IH (S i0)) as [Hpre Hall].
  cbn [enumerate_from]. rewrite merge_loop_cons. cbn [merge_loop].
  rewrite bind_calls.
  2:{ intros q. apply oblivious_bind; [apply merge_loop_oblivious|].
      intros rest. apply oblivious_ret. }
  rewrite annotate_calls, stripped_texts_cons, map_app.
  replace (map Translate
             (if decide (strip (text p) = []) then [] else [strip (text p)]))
    with (if decide (strip (text p) = []) then []
          else [Translate (strip (text p))]) by (by case_decide).
  destruct (result_of (annotate m i0 p)) as [p'|e].
  - rewrite bind_calls by (intros; apply oblivious_ret).
    destruct (result_of (merge_loop m (enumerate_from (S i0) ps)))
      as [rest|e].
    + rewrite ret_calls, app_nil_r, (Hall rest eq_refl). done.
    + rewrite app_nil_r. split; [by apply prefix_app|done].
  - rewrite app_nil_r. split; [apply prefix_app_r; done | done].
Qed.

Lemma chunks_sent_translations (new : list Call) (ts : list str) :
  new `prefix_of` map Translate ts → chunks_sent new = [].
Proof.
  assert (Hnone : chunks_sent (map Translate ts) = []).
  { unfold chunks_sent. induction ts as [|t ts IH]; [done | exact IH]. }
  intros (rest & Heq).
  rewrite Heq in Hnone. unfold chunks_sent in *.
  rewrite omap_app in Hnone. by apply app_eq_nil in Hnone as [? _].
Qed.

Lemma process_docx_raise (doc : list Paragraph) (log : list Call) (b : nat)
    (e : exn) :
  let texts := map truncated (collect_candidates doc) in
  b < n_batches (length texts) →
  SUMMARIZER (batch_of texts b) = Raise e →
  (∀ b', b' < b → ∃ outs, SUMMARIZER (batch_of texts b') = Return outs) →
  process_docx doc log
  = (Raise e, log ++ calls_of (batch_summarize (collect_candidates doc))) ∧
  chunks_sent (calls_of (batch_summarize (collect_candidates doc)))
  = take (S b) (batches texts).
Proof.
  cbn zeta. intros Hb He Hbefore.
  destruct (batch_summarize_outcome (collect_candidates doc)) as (_ & Hraise & _).
  destruct (Hraise b e Hb He Hbefore) as [Hres Hcalls]. split; [|done].
  by rewrite process_docx_run, batch_summarize_oblivious, Hres.
Qed.

(** A run of [process_docx], by its two phases. *)
Lemma process_docx_phases (doc : list Paragraph) (log : list Call) :
  process_docx doc log =
    let batch := batch_summarize (collect_candidates doc) in
    match result_of batch with
    | Return cands' =>
        let merge := merge_loop (idx2summary_of cands') (enumerate doc) in
        (result_of merge, log ++ calls_of batch ++ calls_of merge)
    | Raise e => (Raise e, log ++ calls_of batch)
    end.
Proof.
  cbn zeta. rewrite process_docx_run, batch_summarize_oblivious.
  destruct (result_of (batch_summarize (collect_candidates doc)))
    as [cands'|e]; [|done].
  by rewrite merge_loop_oblivious, app_assoc.
Qed.

(** X7. In a run of [process_docx] that returns, the calls come in two
    phases: first those of the batch summarisation, which sends the
    batches of the candidates' texts to the summariser, then those of the
    merge, which calls the translator only: once for each paragraph that is
    not blank, on its stripped text, in the order of the document. *)
Theorem process_docx_calls_in_two_phases
    (doc doc' : list Paragraph) (log log' : list Call) :
  process_docx doc log = (Return doc', log') →
  ∃ batch_calls,
    log' = log ++ batch_calls ++ map Translate (stripped_texts doc) ∧
    batch_calls = calls_of (batch_summarize (collect_candidates doc)) ∧
    chunks_sent batch_calls
      = batches (map truncated (collect_candidates doc)).
Proof.
  intros Hrun.
  exists (calls_of (batch_summarize (collect_candidates doc))).
  rewrite process_docx_phases in Hrun. cbn zeta in Hrun.
  destruct (result_of (batch_summarize (collect_candidates doc)))
    as [cands'|e] eqn:Hres; [|done].
  injection Hrun as Hmerge <-.
  split_and!; [|done|].
  - destruct (merge_loop_calls (idx2summary_of cands') doc 0) as [_ Hall].
    unfold enumerate. by rewrite (Hall doc' Hmerge).
  - destruct (collect_candidates doc) as [|c cands] eqn:Hc; [done|].
    rewrite batch_summarize_cons in *.
    destruct (batch_loop_spec (map truncated (c :: cands))
                (n_batches (length (map truncated (c :: cands)))) 0
                (c :: cands)) as [_ Hfin].
    by destruct (Hfin cands' Hres) as (Hall & _).
Qed.

(** X8. On a document in which no paragraph has more than 40 alphabetic
    words, [process_docx], between the reading of the document and its
    saving, never calls the summariser: its calls are
    translations only, of the stripped texts of the paragraphs that are
    not blank, in order, and all of them when it returns. It returns
    exactly when the document library can store the translations it is
    asked to add, and raises nothing but what the library raises on one of
    them. *)
Theorem process_docx_without_long_paragraph
    (doc : list Paragraph) (log : list Call) :
  Forall (λ p, length (alphabetic_words (strip (text p))) ≤ 40) doc →
  ∃ new,
    (process_docx doc log).2 = log ++ new ∧
    chunks_sent new = [] ∧
    new `prefix_of` map Translate (stripped_texts doc) ∧
    ((∃ doc', (process_docx doc log).1 = Return doc') ↔
     Forall storable (run_texts ∅ doc)) ∧
    (∀ doc', (process_docx doc log).1 = Return doc' →
             new = map Translate (stripped_texts doc)) ∧
    (∀ e, (process_docx doc log).1 = Raise e →
          ∃ t, t ∈ run_texts ∅ doc ∧ docx_run_text t = Raise e).
Proof.
  intros Hshort.
  assert (Hnone : collect_candidates doc = []).
  { destruct (collect_candidates doc) as [|c cands] eqn:Hc; [done|].
    assert (Hin : c ∈ collect_candidates doc) by (rewrite Hc; by left).
    apply elem_of_collect_candidates in Hin as (j & p & Hj & [_ Hlong] & _).
    rewrite Forall_forall in Hshort.
    specialize (Hshort p ltac:(by eapply list_elem_of_lookup_2)).
    rewrite alpha_words_alphabetic in Hlong. lia. }
  rewrite process_docx_phases, Hnone. cbn zeta.
  change (result_of (batch_summarize [])) with (Return (@nil Candidate)).
  change (calls_of (batch_summarize [])) with (@nil Call).
  change (idx2summary_of []) with (∅ : gmap nat (list N)).
  cbv iota beta. simpl fst. simpl snd.
  destruct (merge_loop_calls ∅ doc 0) as [Hpre Hall].
  destruct (merge_loop_outcome ∅ doc 0) as [Hret Hraise].
  cbn zeta in Hret, Hraise. fold (enumerate doc) in *.
  fold (run_texts ∅ doc) in Hret, Hraise.
  exists (calls_of (merge_loop ∅ (enumerate doc))).
  split_and!; [done| |done|done|done|done].
  by apply (chunks_sent_translations _ (stripped_texts doc)).
Qed.

(** X9. The edges of [truncate_text_by_sentences], for any budget. With no
    sentence, or with a first sentence that alone exceeds the budget, the
    text is returned as it is (and so may exceed the budget). When all the
    sentences fit, they are all kept, and the result still has the marker
    at its end although nothing was dropped. *)
Theorem truncate_text_by_sentences_edges (t : list N) (max_tokens : Z) :
  (sent_tokenize t = [] → truncate_text_by_sentences t max_tokens = t) ∧
  (∀ s rest, sent_tokenize t = s :: rest → (max_tokens < token_count s)%Z →
             truncate_text_by_sentences t max_tokens = t) ∧
  (sent_tokenize t ≠ [] →
   (token_total (sent_tokenize t) ≤ max_tokens)%Z →
   truncate_text_by_sentences t max_tokens
   = join (lit " ") (sent_tokenize t) ++ lit "...").
Proof.
  destruct (keep_sentences_spec max_tokens (sent_tokenize t) 0 [])
    as (kept & dropped & Hsplit & Hkeep & Hin & Hstop).
  unfold truncate_text_by_sentences. rewrite Hkeep. simpl.
  split_and!.
  - intros Hnil. rewrite Hnil in Hsplit.
    symmetry in Hsplit. by apply app_eq_nil in Hsplit as [-> _].
  - intros s rest Hs Hlong. destruct kept as [|s' kept]; [done|].
    exfalso. rewrite Hs in Hsplit. injection Hsplit as <- _.
    specialize (Hin ltac:(done)). rewrite token_total_cons in Hin.
    pose proof (token_total_nonneg kept). lia.
  - intros Hne Hfit. destruct dropped as [|s rest].
    + rewrite app_nil_r in Hsplit. rewrite <- Hsplit.
      by destruct (sent_tokenize t).
    + exfalso. specialize (Hstop s rest eq_refl).
      rewrite Hsplit, token_total_app, token_total_cons in Hfit.
      pose proof (token_total_nonneg rest). lia.
Qed.

End Failures.


(** ** The command line of the annotator *)

Section CommandLineProperties.

Context {ext : External} {files : Files}.

Lemma IO_bind_run {A B} (m : IO A) (f : A → IO B) (w : FS * list Call) :
  (m ≫= f) w =
    match m w with
    | (Return a, w') => f a w'
    | (Raise e, w') => (Raise e, w')
    end.
Proof. reflexivity. Qed.

Lemma cli_skip (f : list N) (fs : list (list N)) (w : FS * list Call) :
  Path_exists w.1 f = false ∨ str_lower (Path_suffix f) ≠ lit ".docx" →
  cli (f :: fs) w = cli fs w.
Proof.
  intros Hskip. cbn [cli]. rewrite IO_bind_run. unfold call_exists.
  destruct (Path_exists w.1 f) eqn:Hex; simpl; [|done].
  destruct Hskip as [|Hsuf]; [done|]. by rewrite bool_decide_eq_true_2.
Qed.

Lemma cli_process (f : list N) (fs : list (list N)) (w : FS * list Call) :
  Path_exists w.1 f = true → str_lower (Path_suffix f) = lit ".docx" →
  cli (f :: fs) w =
    match process_docx_file f w with
    | (Return _, w') => cli fs w'
    | (Raise e, w') => (Raise e, w')
    end.
Proof.
  intros Hex Hsuf. cbn [cli]. rewrite IO_bind_run. unfold call_exists.
  rewrite Hex. simpl. rewrite bool_decide_eq_false_2 by (by intros ?).
  apply IO_bind_run.
Qed.

(** [process_docx(path)] as a whole: it returns exactly when the document
    is read, the annotation returns, the annotated document is saved
    beside the input, and the path of the saved file is resolved. *)
Lemma process_docx_file_returns (path : list N) (fs : FS) (log : list Call) :
  (∃ w', process_docx_file path (fs, log) = (Return tt, w')) ↔
  ∃ doc doc' log' out full,
    Document fs path = Return doc ∧
    process_docx doc log = (Return doc', log') ∧
    Path_with_name path (Path_stem path ++ lit "_zh.docx") = Return out ∧
    (Document_save fs out doc').1 = Return tt ∧
    Path_resolve (Document_save fs out doc').2 out = Return full.
Proof.
  unfold process_docx_file. rewrite IO_bind_run. unfold call_Document.
  simpl fst. destruct (Document fs path) as [doc|e] eqn:Hdoc.
  2:{ split; [by intros (w' & ?) | by intros (? & ? & ? & ? & ? & ? & _)]. }
  rewrite IO_bind_run. unfold lift. simpl fst. simpl snd.
  destruct (process_docx doc log) as [[doc'|e] log'] eqn:Hrun.
  2:{ split; [by intros (w' & ?)|].
      intros (doc0 & ? & ? & ? & ? & [= <-] & Hrun0 & _). congruence. }
  rewrite IO_bind_run. unfold call_with_name.
  destruct (Path_with_name path (Path_stem path ++ lit "_zh.docx"))
    as [out|e] eqn:Hout.
  2:{ split; [by intros (w' & ?)|].
      by intros (? & ? & ? & ? & ? & _ & _ & ? & _). }
  rewrite IO_bind_run. unfold call_save. simpl fst. simpl snd.
  destruct (Document_save fs out doc') as [r fs'] eqn:Hsave.
  destruct r as [[]|e].
  2:{ split; [by intros (w' & ?)|].
      intros (doc0 & doc0' & log0 & out0 & full & [= <-] & Hrun0 & [= <-]
              & Hr & _).
      rewrite Hrun in Hrun0. injection Hrun0 as <- <-.
      by rewrite Hsave in Hr. }
  rewrite IO_bind_run. unfold call_resolve_saved. simpl fst.
  destruct (Path_resolve fs' out) as [full|e] eqn:Hfull.
  - split; [|by eexists]. intros _. exists doc, doc', log', out, full.
    by rewrite Hsave.
  - split; [by intros (w' & ?)|].
    intros (doc0 & doc0' & log0 & out0 & full & [= <-] & Hrun0 & [= <-]
            & _ & Hr).
    rewrite Hrun in Hrun0. injection Hrun0 as <- <-.
    rewrite Hsave in Hr. simpl in Hr. congruence.
Qed.

(** X6. [process_docx(path)] returns exactly when the document is read,
    the annotation of its paragraphs returns, the result is saved and the
    path of the saved file is resolved.
    The annotation, between the reading and the saving, returns exactly
    when the summariser answers every batch of the candidates' texts and
    the document library can store the text of every run the merge asks it
    to add: no failure of the translator makes it raise. When the
    summariser raises on a batch and has answered the batches before it,
    the annotation raises the same exception, and the summariser has been
    called on the batches up to that one only. And an exception that the
    annotation raises is one the summariser raised on a batch, or one the
    library raised on the text of a run. *)
Theorem process_docx_returns_iff_answered_and_stored
    (doc : list Paragraph) (log : list Call) :
  let cands := collect_candidates doc in
  let texts := map truncated cands in
  (∀ path fs,
     (∃ w', process_docx_file path (fs, log) = (Return tt, w')) ↔
     ∃ doc0 doc' log' out full,
       Document fs path = Return doc0 ∧
       process_docx doc0 log = (Return doc', log') ∧
       Path_with_name path (Path_stem path ++ lit "_zh.docx") = Return out ∧
       (Document_save fs out doc').1 = Return tt ∧
       Path_resolve (Document_save fs out doc').2 out = Return full) ∧
  ((∃ cands', result_of (batch_summarize cands) = Return cands') ↔
   all_batches_answered texts) ∧
  ((∃ doc' log', process_docx doc log = (Return doc', log')) ↔
   ∃ cands', result_of (batch_summarize cands) = Return cands' ∧
             Forall storable (run_texts (idx2summary_of cands') doc)) ∧
  (∀ b e, b < n_batches (length texts) →
          SUMMARIZER (batch_of texts b) = Raise e →
          (∀ b', b' < b → ∃ outs, SUMMARIZER (batch_of texts b') = Return outs) →
          ∃ new, process_docx doc log = (Raise e, log ++ new) ∧
                 chunks_sent new = take (S b) (batches texts)) ∧
  (∀ e log', process_docx doc log = (Raise e, log') →
     (∃ b, b < n_batches (length texts) ∧
           SUMMARIZER (batch_of texts b) = Raise e) ∨
     (∃ cands' t, result_of (batch_summarize cands) = Return cands' ∧
                  t ∈ run_texts (idx2summary_of cands') doc ∧
                  docx_run_text t = Raise e)).
Proof.
  cbn zeta. split_and!.
  - intros path fs. apply process_docx_file_returns.
  - apply batch_summarize_answered.
  - rewrite process_docx_phases. cbn zeta.
    destruct (result_of (batch_summarize (collect_candidates doc)))
      as [cands'|e].
    + destruct (merge_loop_outcome (idx2summary_of cands') doc 0) as [Hret _].
      cbn zeta in Hret. fold (enumerate doc) in Hret.
      fold (run_texts (idx2summary_of cands') doc) in Hret. split.
      * intros (doc' & log' & [= Hres _]). exists cands'. split; [done|].
        apply Hret. eauto.
      * intros (cands0 & [= <-] & Hall). apply Hret in Hall as (doc' & Hres).
        rewrite Hres. eauto.
    + split; [by intros (doc' & log' & ?) | by intros (cands' & ? & _)].
  - intros b e Hb He Hbefore.
    destruct (process_docx_raise doc log b e Hb He Hbefore) as [Hrun Hcalls].
    eauto.
  - intros e log'. rewrite process_docx_phases. cbn zeta.
    destruct (result_of (batch_summarize (collect_candidates doc)))
      as [cands'|e0] eqn:Hbatch.
    + intros [= Hres _]. right.
      destruct (merge_loop_outcome (idx2summary_of cands') doc 0) as [_ Hraise].
      cbn zeta in Hraise. destruct (Hraise e Hres) as (t & Hin & Ht).
      exists cands', t. done.
    + intros [= <- _]. left.
      by apply (batch_summarize_outcome (collect_candidates doc)).
Qed.


(** X11. A run over two lists of files in a row is the run over the first
    followed, when it returns, by the run over the second on the file
    system and the log it leaves; when the first run raises, the files of
    the second list are not looked at. *)
Theorem cli_stops_at_the_first_exception
    (fs1 fs2 : list (list N)) (w : FS * list Call) :
  cli (fs1 ++ fs2) w =
    match cli fs1 w with
    | (Return _, w') => cli fs2 w'
    | (Raise e, w') => (Raise e, w')
    end.
Proof.
  revert w. induction fs1 as [|f fs1 IH]; intros w; [done|].
  rewrite <- app_comm_cons.
  destruct (Path_exists w.1 f) eqn:Hex.
  - destruct (decide (str_lower (Path_suffix f) = lit ".docx")) as [Hsuf|Hsuf].
    + rewrite !cli_process by done.
      destruct (process_docx_file f w) as [[[]|e] w']; [apply IH | done].
    + rewrite !cli_skip by (by right). apply IH.
  - rewrite !cli_skip by (by left). apply IH.
Qed.

(** X12. No exception is caught in the loop. When a file that exists and
    has the suffix cannot be read, or when the summariser raises on a
    batch of its candidates, the run raises that exception: nothing is
    saved for this file, the file system is as before, and the files after
    it are not looked at. *)
Theorem cli_raises_what_a_file_raises
    (f : list N) (fs : list (list N)) (w : FS * list Call) (e : exn) :
  Path_exists w.1 f = true →
  str_lower (Path_suffix f) = lit ".docx" →
  (Document w.1 f = Raise e ∨
   ∃ doc b,
     Document w.1 f = Return doc ∧
     b < n_batches (length (collect_candidates doc)) ∧
     SUMMARIZER (batch_of (map truncated (collect_candidates doc)) b)
       = Raise e ∧
     ∀ b', b' < b →
           ∃ outs,
             SUMMARIZER (batch_of (map truncated (collect_candidates doc)) b')
               = Return outs) →
  ∃ new, cli (f :: fs) w = (Raise e, (w.1, w.2 ++ new)).
Proof.
  intros Hex Hsuf Hfail. rewrite cli_process by done.
  unfold process_docx_file. rewrite IO_bind_run. unfold call_Document.
  destruct Hfail as [Hload | (doc & b & Hload & Hb & He & Hbefore)];
    rewrite Hload.
  - exists []. rewrite app_nil_r. by destruct w.
  - rewrite IO_bind_run. unfold lift.
    destruct (process_docx_raise doc w.2 b e) as [Hrun _];
      [by rewrite length_map|done|done|].
    rewrite Hrun. eauto.
Qed.

End CommandLineProperties.


(** ** The fetcher *)

Section FetcherProperties.

Context {web : Web}.
Variable out_dir : list N.

Local Abbreviation quiet := (quiet_in out_dir).
Local Abbreviation reports_saved := (reports_saved_in out_dir).

Lemma F_bind_run {A B} (m : F A) (f : A → F B) (log : list Effect) :
  (m ≫= f) log =
    match m log with
    | (Return a, log') => f a log'
    | (Raise e, log') => (Raise e, log')
    end.
Proof. reflexivity. Qed.

Lemma quiet_ret {A} (a : A) : quiet (mret a : F A).
Proof. intros log. exists []. by rewrite app_nil_r. Qed.

Lemma quiet_raise {A} (e : exn) : quiet (F_raise e : F A).
Proof. intros log. exists []. by rewrite app_nil_r. Qed.

Lemma quiet_bind {A B} (m : F A) (f : A → F B) :
  quiet m → (∀ a, quiet (f a)) → quiet (m ≫= f).
Proof.
  intros Hm Hf log. rewrite F_bind_run.
  destruct (Hm log) as (evs1 & Hlog1 & Hevs1).
  destruct (m log) as [[a|e] log1]; simpl in Hlog1; subst log1.
  - destruct (Hf a (log ++ evs1)) as (evs2 & Hlog2 & Hevs2).
    exists (evs1 ++ evs2). rewrite Hlog2, app_assoc.
    split; [done | by apply Forall_app].
  - by exists evs1.
Qed.

Lemma quiet_docx (op : DocxOp) :
  saving_effect out_dir (EvDocx op) → quiet (docx op).
Proof. intros Hop log. exists [EvDocx op]. split; [done | by constructor]. Qed.

Lemma quiet_mkdir : quiet (call_mkdir out_dir).
Proof.
  intros log. exists [EvMkdir out_dir true true].
  split; [done | by apply Forall_singleton].
Qed.

Lemma quiet_add_paragraphs (ps : list (list N)) :
  Forall (λ t, t ≠ []) ps → quiet (add_paragraphs ps).
Proof.
  induction 1 as [|para ps Hpara _ IH]; simpl; [apply quiet_ret|].
  apply quiet_bind; [by apply quiet_docx|]. intros _.
  apply quiet_bind; [by apply quiet_docx|]. intros _. apply IH.
Qed.

Lemma reports_saved_bind {A} (m : F A) (f : A → F unit) :
  quiet m → (∀ a, reports_saved (f a)) → reports_saved (m ≫= f).
Proof.
  intros Hm Hf log. rewrite F_bind_run.
  destruct (Hm log) as (evs1 & Hlog1 & Hevs1).
  destruct (m log) as [[a|e] log1]; simpl in Hlog1; subst log1.
  - destruct (Hf a (log ++ evs1)) as (evs2 & Hevs2 & Hrun).
    exists (evs1 ++ evs2). split; [by apply Forall_app|].
    destruct Hrun as [(e & ->) | (path & Hpath & ->)].
    + left. exists e. by rewrite app_assoc.
    + right. exists path. split; [done|]. by rewrite !app_assoc.
  - exists evs1. split; [done|]. left. by exists e.
Qed.

Lemma reports_saved_report (path : FilePath) :
  docx_path_in out_dir path → reports_saved (report (Saved path)).
Proof.
  intros Hpath log. exists []. split; [done|]. right. exists path.
  split; [done|]. reflexivity.
Qed.

Lemma article_filename_path (date title : list N) :
  docx_path_in out_dir (mkFilePath out_dir (article_filename date title)).
Proof.
  unfold docx_path_in. simpl.
  unfold article_filename.
  set (stem := (if truthy date then date else lit "undated") ++ lit "-" ++ title).
  replace ((if truthy date then date else lit "undated")
             ++ lit "-" ++ title ++ lit ".docx")
    with (stem ++ lit ".docx") by (unfold stem; by rewrite <- !app_assoc).
  pose proof (sanitize_filename_safe_chars (stem ++ lit ".docx")) as Hsafe.
  rewrite Forall_forall in Hsafe.
  split_and!; [done| | |].
  - rewrite sanitize_filename_app_plain by (done || apply docx_plain).
    by eexists.
  - intros Hin. destruct (Hsafe _ Hin) as [Hres _]. apply Hres.
    apply (bool_decide_unpack (47%N ∈ RESERVED)). vm_compute. exact I.
  - intros Hin. destruct (Hsafe _ Hin) as [Hres _]. apply Hres.
    apply (bool_decide_unpack (92%N ∈ RESERVED)). vm_compute. exact I.
Qed.

Lemma parse_soup_paragraphs (soup : Soup) :
  Forall (λ t, t ≠ []) (art_paragraphs (parse_soup soup)).
Proof.
  unfold parse_soup. simpl.
  destruct (match find_div soup with
            | Some c => Some c
            | None => find_article soup
            end) as [ps|]; [|done].
  apply Forall_forall. intros t [Ht _]%list_elem_of_filter.
  by apply truthy_true.
Qed.

Lemma save_to_word_reports (article : Article) (path : FilePath) :
  Forall (λ t, t ≠ []) (art_paragraphs article) →
  docx_path_in out_dir path →
  reports_saved (save_to_word article path).
Proof.
  intros Hps Hpath. unfold save_to_word.
  destruct Hpath as (Hparent & Hrest). rewrite Hparent.
  apply reports_saved_bind; [apply quiet_mkdir|]. intros _.
  do 8 (apply reports_saved_bind; [by apply quiet_docx|]; intros _).
  apply reports_saved_bind.
  { destruct (truthy (art_date article)) eqn:Hdate; [|apply quiet_ret].
    apply quiet_bind; [|intros _; by apply quiet_docx].
    apply quiet_docx. simpl. by destruct DATE_LABEL. }
  intros _.
  apply reports_saved_bind; [by apply quiet_add_paragraphs|]. intros _.
  apply reports_saved_bind.
  { apply quiet_docx. simpl. by split. }
  intros _. apply reports_saved_report. by split.
Qed.

Lemma quiet_raise_for_status (resp : Response) : quiet (raise_for_status resp).
Proof.
  unfold raise_for_status.
  destruct (status_error resp); [apply quiet_raise | apply quiet_ret].
Qed.

(** What follows the request of one URL, in the body of the loop. *)
Lemma after_get_reports (resp : Response) :
  reports_saved
    (html ← (raise_for_status resp;; mret (resp_text resp));
     art ← parse_article html;
     save_to_word art
       (mkFilePath out_dir
          (article_filename (art_date art) (art_title art)))).
Proof.
  apply reports_saved_bind.
  { apply quiet_bind; [apply quiet_raise_for_status|].
    intros _. apply quiet_ret. }
  intros html log. rewrite F_bind_run. unfold parse_article.
  rewrite F_bind_run.
  destruct (BeautifulSoup html) as [soup|e].
  - apply save_to_word_reports;
      [apply parse_soup_paragraphs | apply article_filename_path].
  - exists []. split; [done|]. left. exists e. by rewrite app_nil_r.
Qed.

(** One URL: the request, then effects of saving, then one line, which is
    the failure of this URL or a file saved in [out_dir]; and no
    exception. *)
Lemma handle_url_spec (url : list N) (log : list Effect) :
  ∃ evs line,
    handle_url out_dir url log
    = (Return tt, log ++ EvGet url :: evs ++ [EvReport line]) ∧
    Forall (saving_effect out_dir) evs ∧
    line_of url line ∧
    main_effect out_dir (EvReport line).
Proof.
  unfold handle_url, F_try, fetch_page.
  rewrite F_bind_run, F_bind_run. unfold call_get at 1.
  destruct (requests_get log url) as [resp|e].
  - destruct (after_get_reports resp (log ++ [EvGet url]))
      as (evs & Hevs & [(e & Hrun) | (path & Hpath & Hrun)]).
    + exists evs, (Failed url e). rewrite F_bind_run in Hrun. rewrite Hrun.
      unfold report. rewrite <- !app_assoc. done.
    + exists evs, (Saved path). rewrite F_bind_run in Hrun. rewrite Hrun.
      rewrite <- !app_assoc. done.
  - exists [], (Failed url e). unfold report. rewrite <- !app_assoc. done.
Qed.

Lemma urls_requested_saving (evs : list Effect) :
  Forall (saving_effect out_dir) evs →
  urls_requested evs = [] ∧ lines_reported evs = [].
Proof.
  unfold urls_requested, lines_reported.
  induction 1 as [|ev evs Hev _ [IH1 IH2]]; [done|].
  destruct ev as [|dir parents exist_ok|op|]; try done; simpl;
    by rewrite ?IH1, ?IH2.
Qed.

(** The whole loop, URL by URL. *)
Lemma main_loop_spec (urls : list (list N)) :
  ∀ log, ∃ new lines,
    main_loop out_dir urls log = (Return tt, log ++ new) ∧
    urls_requested new = urls ∧
    lines_reported new = lines ∧
    Forall2 line_of urls lines ∧
    Forall (main_effect out_dir) new.
Proof.
  induction urls as [|url urls IH]; intros log.
  - exists [], []. rewrite app_nil_r. by split_and!.
  - destruct (handle_url_spec url log)
      as (evs & line & Hrun & Hevs & Hline & Hok).
    destruct (IH (log ++ EvGet url :: evs ++ [EvReport line]))
      as (new & lines & Hrest & Hurls & Hlines & Hall & Hsafe).
    destruct (urls_requested_saving evs Hevs) as [Hu Hl].
    exists ((EvGet url :: evs ++ [EvReport line]) ++ new), (line :: lines).
    cbn [main_loop]. rewrite F_bind_run, Hrun, Hrest.
    unfold urls_requested, lines_reported in *.
    split_and!.
    + by rewrite app_assoc.
    + rewrite omap_app. cbn [omap list_omap]. rewrite omap_app, Hu, Hurls.
      done.
    + rewrite omap_app. cbn [omap list_omap]. rewrite omap_app, Hl, Hlines.
      done.
    + by constructor.
    + apply Forall_app. split; [|done]. constructor; [done|].
      apply Forall_app. split; [|by constructor].
      eapply Forall_impl; [exact Hevs|]. intros ev Hev.
      by destruct ev as [|dir parents exist_ok|[]|].
Qed.

End FetcherProperties.

Section MainProperties.

Context {web : Web}.

Lemma main_run (argv : list (list N)) (log : list Effect) :
  main argv log =
    match parse_args argv with
    | None => (Return None, log)
    | Some args =>
        match Path_expanduser_resolve log (outdir args) with
        | Raise e => (Raise e, log)
        | Return out_dir =>
            match main_loop out_dir (urls args) log with
            | (Return _, log') => (Return (Some tt), log')
            | (Raise e, log') => (Raise e, log')
            end
        end
    end.
Proof.
  unfold main. destruct (parse_args argv) as [args|]; [|done].
  rewrite F_bind_run. unfold call_resolve.
  destruct (Path_expanduser_resolve log (outdir args)) as [out_dir|e]; [|done].
  rewrite F_bind_run. by destruct (main_loop out_dir (urls args) log) as [[[]|e] log'].
Qed.

(** X13. When argparse ends the program, [main] does nothing more; when
    the output directory cannot be resolved, [main] raises what the
    resolution raises, before any request: both come before the loop and
    outside its [try]. Otherwise [main] raises no exception and goes
    through all the URLs: each one is requested once, in the order given,
    whatever happened to the URLs before it, and each one gets one line on
    the console, which for a failure names this URL. *)
Theorem main_attempts_every_url (argv : list (list N)) (log : list Effect) :
  match parse_args argv with
  | None => main argv log = (Return None, log)
  | Some args =>
      match Path_expanduser_resolve log (outdir args) with
      | Raise e => main argv log = (Raise e, log)
      | Return out_dir =>
          ∃ new,
            main argv log = (Return (Some tt), log ++ new) ∧
            urls_requested new = urls args ∧
            Forall2 line_of (urls args) (lines_reported new)
      end
  end.
Proof.
  rewrite main_run. destruct (parse_args argv) as [args|]; [|done].
  destruct (Path_expanduser_resolve log (outdir args)) as [out_dir|e]; [|done].
  destruct (main_loop_spec out_dir (urls args) log)
    as (new & lines & Hrun & Hurls & <- & Hall & _).
  exists new. by rewrite Hrun.
Qed.

(** X14. In a run of [main] whose arguments parse and whose output
    directory resolves to [out_dir], whatever the pages hold: every call of
    [mkdir] is on [out_dir] itself, with [parents] and [exist_ok] (so that
    [out_dir] and its missing ancestors are the only directories made);
    documents are saved only to paths in [out_dir] whose names end with
    [.docx] and hold no slash and no backslash; a line about a saved file
    names such a path; the text of every [add_paragraph] is not empty; and
    a heading is of level 1, with a text that may be empty. *)
Theorem main_writes_inside_the_output_directory
    (argv : list (list N)) (log : list Effect) (args : Args)
    (out_dir : list N) :
  parse_args argv = Some args →
  Path_expanduser_resolve log (outdir args) = Return out_dir →
  ∃ new,
    main argv log = (Return (Some tt), log ++ new) ∧
    Forall (main_effect out_dir) new.
Proof.
  intros Hargs Hdir. rewrite main_run, Hargs, Hdir.
  destruct (main_loop_spec out_dir (urls args) log)
    as (new & lines & Hrun & _ & _ & _ & Hsafe).
  exists new. by rewrite Hrun.
Qed.

End MainProperties.

(** ** The further properties on the small instances *)

Section MoreInstances.

Lemma sanitize_filename_keeps_plain_suffix_witness :
  lit ".docx" `suffix_of` sanitize_filename (lit "my report? " ++ lit ".docx").
Proof.
  apply sanitize_filename_keeps_plain_suffix.
  - discriminate.
  - apply docx_plain.
Defined.

Lemma process_docx_calls_in_two_phases_witness :
  ∃ batch_calls,
    [ Summarize [Toy.words 41 (lit "ab")];
      Translate (lit "ab ab");
      Translate (lit "hello");
      Translate (Toy.words 41 (lit "ab"));
      Translate (lit "~what") ]
    = [] ++ batch_calls ++ map Translate (stripped_texts Toy.sample_doc) ∧
    batch_calls
    = calls_of (batch_summarize (ext := Toy.external)
                  (collect_candidates (ext := Toy.external) Toy.sample_doc)) ∧
    chunks_sent batch_calls
    = batches (map truncated
                 (collect_candidates (ext := Toy.external) Toy.sample_doc)).
Proof.
  exact (process_docx_calls_in_two_phases (ext := Toy.external)
           _ _ _ _ process_docx_sample).
Defined.

Lemma process_docx_without_long_paragraph_witness :
  ∃ new,
    (process_docx (ext := Toy.external)
       [Toy.para "hello"; Toy.para "   "; Toy.para_mixed 40] []).2 = [] ++ new ∧
    chunks_sent new = [].
Proof.
  destruct (process_docx_without_long_paragraph (ext := Toy.external)
              [Toy.para "hello"; Toy.para "   "; Toy.para_mixed 40] [])
    as (new & Hlog & Hnone & _).
  - repeat (apply Forall_cons; split); [| | |apply Forall_nil_2];
      apply Nat.leb_le; vm_compute; reflexivity.
  - exists new. split; [exact Hlog | exact Hnone].
Defined.


Lemma cli_raises_what_a_file_raises_witness :
  ∃ new,
    cli (ext := Lab.flaky) (files := Lab.disk)
        [lit "long.docx"; lit "notes.txt"] (Lab.shelf, [])
    = (Raise (Exception (lit "out of memory")), (Lab.shelf, [] ++ new)).
Proof.
  apply (cli_raises_what_a_file_raises (ext := Lab.flaky) (files := Lab.disk)
           (lit "long.docx") [lit "notes.txt"] (Lab.shelf, [])).
  - vm_compute. reflexivity.
  - vm_compute. reflexivity.
  - right. exists Lab.two_batches, 1. split_and!.
    + vm_compute. reflexivity.
    + apply Nat.ltb_lt. vm_compute. reflexivity.
    + vm_compute. reflexivity.
    + intros [|b'] Hb'; [|lia]. eexists. vm_compute. reflexivity.
Defined.

Lemma main_writes_inside_the_output_directory_witness :
  ∃ new,
    main (web := Lab.net) [lit "out"; lit "ab"; lit "!x"] []
    = (Return (Some tt), [] ++ new) ∧
    Forall (main_effect (lit "out")) new.
Proof.
  apply (main_writes_inside_the_output_directory (web := Lab.net)
           [lit "out"; lit "ab"; lit "!x"] []
           (mkArgs [lit "ab"; lit "!x"] (lit "out")) (lit "out")).
  - reflexivity.
  - reflexivity.
Defined.

(** A run of the fetcher over a URL that is served and one that is not; a
    run whose output directory cannot be resolved; and a command line
    without a URL. *)
Example main_sample :
  let run := main (web := Lab.net) [lit "out"; lit "ab"; lit "!x"] [] in
  run.1 = Return (Some tt) ∧
  urls_requested run.2 = [lit "ab"; lit "!x"] ∧
  lines_reported run.2
  = [ Saved (mkFilePath (lit "out") (lit "2024-05-06-ab.docx"));
      Failed (lit "!x") (Exception (lit "connection refused")) ] ∧
  main (web := Lab.net) [lit "~nobody/out"; lit "ab"] []
  = (Raise (Exception (lit "cannot determine home directory")), []) ∧
  main (web := Lab.net) [lit "out"] [] = (Return None, []).
Proof. vm_compute. done. Qed.

(** A run of the annotator over a file whose second batch fails, and one
    in which a file saved earlier in the run is read again. *)
Example cli_sample :
  (cli (ext := Lab.flaky) (files := Lab.disk)
       [lit "long.docx"; lit "notes.txt"] (Lab.shelf, [])).1
  = Raise (Exception (lit "out of memory")) ∧
  map fst (cli (ext := Toy.external) (files := Lab.disk)
             [lit "long.docx"; lit "long_zh.docx"] (Lab.shelf, [])).2.1
  = [lit "long_zh_zh.docx"; lit "long_zh.docx"; lit "long.docx";
     lit "notes.txt"].
Proof. vm_compute. done. Qed.

End MoreInstances.
